(** * The lending environment of the fairness gym: state updaters and step.

    A shallow embedding of [src/lending/environments/lending.py]:
    [_CashUpdater], [_ApplicantSampler], [_CreditShift], [State] and the
    step and termination functions of [BaseLendingEnv], followed by the
    properties of the specification that concern them.

    Python numbers are kept abstract behind the class [PyNum], so that the
    definitions read the same for exact rationals and for binary64 floats;
    exceptions are explicit results. *)

From Stdlib Require Import List Bool ZArith QArith Qabs Qminmax Lia Floats.
Import ListNotations.

Set Implicit Arguments.

(** ** Exceptions *)

(** The [assert] statements of [_CreditShift.update], in source order. *)
Inductive assertion : Type :=
  | GroupIdOutOfSync      (* state.group_id == np.argmax(state.group) *)
  | SampledOtherGroup     (* np.array_equal(group, state.group) *)
  | ArgmaxIsNotIndex      (* np.argmax(credit_score) == idx *)
  | ClusterHasNoMass      (* cluster_probs[cluster_id] > 0 *)
  | ProbsDoNotSumToOne    (* np.abs(np.sum(cluster_probs) - 1) < 1e-6 *)
  | NegativeProb.         (* all(prob >= 0 ...) *)

Inductive error : Type :=
  | AssertionError (a : assertion)
  | IndexError
  | ValueError
  | PostTerminationStep.

Inductive result (A : Type) : Type :=
  | Ok (a : A)
  | Raise (e : error).
Arguments Raise {A} e.

Definition bind {A B : Type} (r : result A) (k : A -> result B) : result B :=
  match r with
  | Ok a => k a
  | Raise e => Raise e
  end.

Declare Scope py_scope.
Delimit Scope py_scope with py.
Notation "x <- r ;; k" := (bind r (fun x => k))
  (at level 61, r at next level, right associativity) : py_scope.
Notation "' p <- r ;; k" := (bind r (fun p => k))
  (at level 61, p pattern, r at next level, right associativity) : py_scope.

(** [assert cond, which]. *)
Definition assert (cond : bool) (which : assertion) : result unit :=
  if cond then Ok tt else Raise (AssertionError which).

Open Scope py_scope.

(** ** Numbers *)

(** The arithmetic the updaters use: the literals [0], [1] and [1e-6],
    [+], [-], [*], [<], [<=], [np.abs] and [np.sum]. *)
Class PyNum : Type := {
  num : Type;
  zero : num;
  one : num;
  tol : num;
  add : num -> num -> num;
  sub : num -> num -> num;
  mul : num -> num -> num;
  ltb : num -> num -> bool;
  leb : num -> num -> bool;
  np_abs : num -> num;
  np_sum : list num -> num
}.

(** Exact arithmetic: [a < b], and the sum of a list from left to right. *)
Definition Qltb (a b : Q) : bool := negb (Qle_bool b a).

Definition sumQ (l : list Q) : Q := fold_left Qplus l 0%Q.

Definition QNum : PyNum := {|
  num := Q;
  zero := 0%Q;
  one := 1%Q;
  tol := (1 # 1000000)%Q;
  add := Qplus;
  sub := Qminus;
  mul := Qmult;
  ltb := Qltb;
  leb := Qle_bool;
  np_abs := Qabs;
  np_sum := sumQ
|}.

(** IEEE 754 binary64, the representation of a Python [float].  [np.sum]
    adds an array of fewer than eight elements from left to right; this
    instance is only evaluated on such arrays. *)
Definition FloatNum : PyNum := {|
  num := float;
  zero := 0%float;
  one := 1%float;
  tol := 0x1.0c6f7a0b5ed8dp-20%float;
  add := PrimFloat.add;
  sub := PrimFloat.sub;
  mul := PrimFloat.mul;
  ltb := PrimFloat.ltb;
  leb := PrimFloat.leb;
  np_abs := PrimFloat.abs;
  np_sum := fun l => fold_left PrimFloat.add l 0%float
|}.

(** The builtin [min(a, b)]: [b] when [b < a], else [a]. *)
Definition py_min {N : PyNum} (a b : num) : num := if ltb b a then b else a.

(** [np.clip(x, lo, hi)] on one element: [minimum(maximum(x, lo), hi)]. *)
Definition clip1 {N : PyNum} (lo hi x : num) : num :=
  let y := if ltb x lo then lo else x in
  if ltb hi y then hi else y.

Definition np_clip {N : PyNum} (a : list num) (lo hi : num) : list num :=
  map (clip1 lo hi) a.

(** ** Sequences *)

Section Sequences.
Context {A : Type}.

(** [l[i]] for a non-negative [i]. *)
Definition getitem (l : list A) (i : nat) : result A :=
  match nth_error l i with
  | Some x => Ok x
  | None => Raise IndexError
  end.

(** [l[i] = v] for a non-negative [i], on a copy of [l]. *)
Fixpoint setitem (l : list A) (i : nat) (v : A) : result (list A) :=
  match l, i with
  | [], _ => Raise IndexError
  | _ :: l', O => Ok (v :: l')
  | x :: l', S i' => l'' <- setitem l' i' v ;; Ok (x :: l'')
  end.

Variable lt : A -> A -> bool.

(** The scan of [np.argmax] over an array without NaN: the running maximum
    is replaced only by a strictly greater element, so the first maximum
    wins. *)
Fixpoint argmax_from (best_i : nat) (best : A) (i : nat) (l : list A) : nat :=
  match l with
  | [] => best_i
  | x :: l' =>
      if lt best x then argmax_from i x (S i) l'
      else argmax_from best_i best (S i) l'
  end.

(** [np.argmax(l)]; an empty sequence raises [ValueError]. *)
Definition np_argmax (l : list A) : result nat :=
  match l with
  | [] => Raise ValueError
  | x :: l' => Ok (argmax_from 0 x 1 l')
  end.

(** [np.argmax] of an optional attribute: [None] becomes a
    zero-dimensional array, whose argmax is [0]. *)
Definition np_argmax_opt (o : option (list A)) : result nat :=
  match o with
  | None => Ok 0%nat
  | Some l => np_argmax l
  end.
End Sequences.

(** [np.array_equal(group, state.group)]: the same shape and the same
    element at every index; against [None] the shapes differ. *)
Definition array_equal (a : list Z) (o : option (list Z)) : bool :=
  match o with
  | Some b =>
      Nat.eqb (length a) (length b)
      && forallb (fun p => Z.eqb (fst p) (snd p)) (combine a b)
  | None => false
  end.

(** [state.group_id == i] for an integer [i]. *)
Definition group_id_eqb (o : option nat) (i : nat) : bool :=
  match o with
  | Some g => Nat.eqb g i
  | None => false
  end.

(** Truth value of [state.will_default]: [None] is falsy. *)
Definition truthy (o : option bool) : bool :=
  match o with
  | Some b => b
  | None => false
  end.

(** ** Random source *)

(** [np.random.RandomState]: [choice rng p] is the index that
    [rng.choice(components, p=p)] draws, with the advanced random source;
    [None] when numpy rejects the probabilities with a [ValueError]. *)
Class PyRandom (N : PyNum) : Type := {
  RandomState : Type;
  choice : RandomState -> list num -> option (nat * RandomState)
}.

Definition rng_choice {N : PyNum} {R : PyRandom N} (rng : RandomState)
    (p : list num) : result (nat * RandomState) :=
  match choice rng p with
  | Some r => Ok r
  | None => Raise ValueError
  end.

(** ** Data model *)

Inductive LoanDecision : Type := REJECT | ACCEPT.

Section Model.
Context {N : PyNum} {R : PyRandom N}.

(** Modelled from the spec: the applicant record of the missing
    [distributions] module, Applicant = {features, group (one-hot),
    will-default}. *)
Record Applicant : Type := {
  features : list num;
  applicant_group : list Z;
  applicant_will_default : bool
}.

(** Modelled from the spec: a per-cluster sampling component, which draws
    one applicant from the random source. *)
Definition Component : Type :=
  RandomState -> Applicant * RandomState.

(** Modelled from the spec: a group's cluster mixture, the object
    [applicant_distribution.components[group_id]] with its [weights] and
    its per-cluster [components]. *)
Record Mixture : Type := {
  weights : list num;
  cluster_components : list Component
}.

(** Modelled from the spec: the population model, a mixture over groups
    with fixed top-level weights. *)
Record Distribution : Type := {
  components : list Mixture;
  mixture_weights : list num
}.

(** Modelled from the spec: [Mixture.sample] of a group's cluster mixture:
    one draw for the cluster, then the cluster's own draw. *)
Definition Mixture_sample (m : Mixture) (rng : RandomState)
  : result (Applicant * RandomState) :=
  '(j, rng1) <- rng_choice rng (weights m) ;;
  c <- getitem (cluster_components m) j ;;
  Ok (c rng1).

(** Modelled from the spec: [applicant_distribution.sample(rng)]: one draw
    for the group, then the group's mixture. *)
Definition sample (d : Distribution) (rng : RandomState)
  : result (Applicant * RandomState) :=
  '(i, rng1) <- rng_choice rng (mixture_weights d) ;;
  m <- getitem (components d) i ;;
  Mixture_sample m rng1.

(** The fields of [lending_params.Params] that the environment reads. *)
Record Params : Type := {
  applicant_distribution : Distribution;
  loan_amount : num;
  interest_rate : num;
  cluster_shift_increment : num;
  min_observation : num;
  max_observation : num;
  bank_starting_cash : num;
  max_cash : num
}.

Record State : Type := {
  rng : RandomState;
  params : Params;
  bank_cash : num;
  applicant_features : option (list num);
  group : option (list Z);
  group_id : option nat;
  will_default : option bool
}.

(** [update(state, action)]: the state after the in-place mutation, or the
    exception raised. *)
Definition StateUpdater : Type :=
  State -> option LoanDecision -> result State.

Definition set_bank_cash (s : State) (c : num) : State :=
  {| rng := rng s; params := params s; bank_cash := c;
     applicant_features := applicant_features s; group := group s;
     group_id := group_id s; will_default := will_default s |}.

Definition set_weights (m : Mixture) (w : list num) : Mixture :=
  {| weights := w; cluster_components := cluster_components m |}.

Definition set_components (d : Distribution) (cs : list Mixture)
  : Distribution :=
  {| components := cs; mixture_weights := mixture_weights d |}.

Definition set_applicant_distribution (p : Params) (d : Distribution)
  : Params :=
  {| applicant_distribution := d; loan_amount := loan_amount p;
     interest_rate := interest_rate p;
     cluster_shift_increment := cluster_shift_increment p;
     min_observation := min_observation p;
     max_observation := max_observation p;
     bank_starting_cash := bank_starting_cash p; max_cash := max_cash p |}.

Definition set_params (s : State) (p : Params) : State :=
  {| rng := rng s; params := p; bank_cash := bank_cash s;
     applicant_features := applicant_features s; group := group s;
     group_id := group_id s; will_default := will_default s |}.

(** ** The state updaters *)

Definition _CashUpdater_update : StateUpdater := fun state action =>
  let params := params state in
  match action with
  | Some REJECT => Ok state
  | _ =>
      if truthy (will_default state) then
        Ok (set_bank_cash state (sub (bank_cash state) (loan_amount params)))
      else
        Ok (set_bank_cash state
              (add (bank_cash state)
                   (mul (loan_amount params) (interest_rate params))))
  end.

Definition _ApplicantSampler_update : StateUpdater := fun state _ =>
  let params' := params state in
  '(new_applicant, rng') <- sample (applicant_distribution params') (rng state) ;;
  let applicant_features' :=
    np_clip (features new_applicant)
            (min_observation params') (max_observation params') in
  gid <- np_argmax Z.ltb (applicant_group new_applicant) ;;
  Ok {| rng := rng'; params := params'; bank_cash := bank_cash state;
        applicant_features := Some applicant_features';
        group := Some (applicant_group new_applicant);
        group_id := Some gid;
        will_default := Some (applicant_will_default new_applicant) |}.

(** Modelled from the spec: [core.NoUpdate], the no-op updater. *)
Definition NoUpdate_update : StateUpdater := fun state _ => Ok state.

(** The first loop of [_CreditShift.update]: [n] draws from the group's
    mixture, each compared with [state.group]. *)
Fixpoint check_sampled_group (n : nat) (m : Mixture) (g : option (list Z))
    (rng : RandomState) : result RandomState :=
  match n with
  | O => Ok rng
  | S n' =>
      '(a, rng1) <- Mixture_sample m rng ;;
      _ <- assert (array_equal (applicant_group a) g) SampledOtherGroup ;;
      check_sampled_group n' m g rng1
  end.

(** The second loop: one draw from every cluster component, whose argmax
    must be the component's index. *)
Fixpoint check_argmax (idx : nat) (cs : list Component) (rng : RandomState)
  : result RandomState :=
  match cs with
  | [] => Ok rng
  | component :: cs' =>
      let '(a, rng1) := component rng in
      i <- np_argmax ltb (features a) ;;
      _ <- assert (Nat.eqb i idx) ArgmaxIsNotIndex ;;
      check_argmax (S idx) cs' rng1
  end.

(** The target cluster: one down on default, one up on repayment, kept
    inside the cluster array. *)
Definition target_cluster (cluster_id : nat) (defaulted : bool) (len : nat)
  : nat :=
  let new_cluster :=
    (if defaulted then Z.of_nat cluster_id - 1 else Z.of_nat cluster_id + 1)%Z in
  let new_cluster := Z.min new_cluster (Z.of_nat len - 1) in
  let new_cluster := Z.max new_cluster 0 in
  Z.to_nat new_cluster.

(** Lines 310-315: the mass moved and the two in-place updates of the
    copied weight list. *)
Definition shift_mass (cluster_probs : list num) (cluster_id new_cluster : nat)
    (increment : num) : result (list num) :=
  w <- getitem cluster_probs cluster_id ;;
  let mass_to_shift := py_min increment w in
  w1 <- getitem cluster_probs cluster_id ;;
  cluster_probs1 <- setitem cluster_probs cluster_id (sub w1 mass_to_shift) ;;
  w2 <- getitem cluster_probs1 new_cluster ;;
  setitem cluster_probs1 new_cluster (add w2 mass_to_shift).

(** The two closing assertions on the new weights. *)
Definition sums_to_one (cluster_probs : list num) : bool :=
  ltb (np_abs (sub (np_sum cluster_probs) one)) tol.

Definition non_negative (cluster_probs : list num) : bool :=
  forallb (fun prob => leb zero prob) cluster_probs.

(** [_CreditShift.update]; [fresh] is the state of the random source that
    [np.random.RandomState()] constructs inside the call. *)
Definition _CreditShift_update (fresh : RandomState) : StateUpdater :=
  fun state action =>
  match action with
  | Some REJECT => Ok state
  | _ =>
      let params' := params state in
      i <- np_argmax_opt Z.ltb (group state) ;;
      _ <- assert (group_id_eqb (group_id state) i) GroupIdOutOfSync ;;
      let group_id' := i in
      m <- getitem (components (applicant_distribution params')) group_id' ;;
      let cluster_probs := weights m in
      rng1 <- check_sampled_group 10 m (group state) fresh ;;
      _ <- check_argmax 0 (cluster_components m) rng1 ;;
      cluster_id <- np_argmax_opt ltb (applicant_features state) ;;
      let new_cluster :=
        target_cluster cluster_id (truthy (will_default state))
                       (length cluster_probs) in
      w <- getitem cluster_probs cluster_id ;;
      _ <- assert (ltb zero w) ClusterHasNoMass ;;
      cluster_probs' <-
        shift_mass cluster_probs cluster_id new_cluster
                   (cluster_shift_increment params') ;;
      _ <- assert (sums_to_one cluster_probs') ProbsDoNotSumToOne ;;
      _ <- assert (non_negative cluster_probs') NegativeProb ;;
      components' <-
        setitem (components (applicant_distribution params')) group_id'
                (set_weights m cluster_probs') ;;
      Ok (set_params state
            (set_applicant_distribution params'
               (set_components (applicant_distribution params') components')))
  end.
(** The weights of group [g] in a state, when the group exists. *)
Definition cluster_weights (s : State) (g : nat) : option (list num) :=
  option_map weights
    (nth_error (components (applicant_distribution (params s))) g).

(** The invariant of a cluster mixture, as the updater itself tests it. *)
Definition valid_weights (w : list num) : Prop :=
  sums_to_one w = true /\ non_negative w = true.

(** The weight of the applicant's current cluster, as the updater looks it
    up: the group by the argmax of its one-hot vector, the cluster by the
    argmax of the features. *)
Definition current_cluster_weight (s : State) : result num :=
  i <- np_argmax_opt Z.ltb (group s) ;;
  m <- getitem (components (applicant_distribution (params s))) i ;;
  cluster_id <- np_argmax_opt ltb (applicant_features s) ;;
  getitem (weights m) cluster_id.

(** The same state around another random source. *)
Definition set_rng (s : State) (r : RandomState) : State :=
  {| rng := r; params := params s; bank_cash := bank_cash s;
     applicant_features := applicant_features s; group := group s;
     group_id := group_id s; will_default := will_default s |}.
(** ** Views of a state, for the statements below *)

(** The applicant a state carries. *)
Definition applicant_of (s : State)
  : option (list num) * option (list Z) * option nat * option bool :=
  (applicant_features s, group s, group_id s, will_default s).

(** [group_id] is the argmax of [group]. *)
Definition group_in_sync (s : State) : Prop :=
  exists g gid,
    group s = Some g /\ group_id s = Some gid /\ np_argmax Z.ltb g = Ok gid.

(** The cash an action leaves, computed from the applicant's outcome. *)
Definition cash_after (s : State) (action : LoanDecision) : num :=
  match action with
  | REJECT => bank_cash s
  | ACCEPT =>
      if truthy (will_default s)
      then sub (bank_cash s) (loan_amount (params s))
      else add (bank_cash s)
               (mul (loan_amount (params s)) (interest_rate (params s)))
  end.

(** The weights of group [g] after an update, when it returned. *)
Definition weights_after (r : result State) (g : nat) : option (list num) :=
  match r with
  | Ok s => cluster_weights s g
  | Raise _ => None
  end.
End Model.

(** ** The environment *)

Section Environment.
Context {N : PyNum} {R : PyRandom N}.

(** The three updaters a lending environment class carries.  The
    parameter updater is given the random source that a
    [np.random.RandomState()] inside it would construct. *)
Record LendingEnv : Type := {
  _cash_updater : StateUpdater;
  _parameter_updater : RandomState -> StateUpdater;
  _applicant_updater : StateUpdater
}.

Definition BaseLendingEnv : LendingEnv := {|
  _cash_updater := _CashUpdater_update;
  _parameter_updater := fun _ => NoUpdate_update;
  _applicant_updater := _ApplicantSampler_update
|}.

Definition DelayedImpactEnv : LendingEnv := {|
  _cash_updater := _CashUpdater_update;
  _parameter_updater := _CreditShift_update;
  _applicant_updater := _ApplicantSampler_update
|}.

(** [_state_init(rng)]: the state owns a copy of the initial parameters,
    starts with the configured cash and no applicant, and is then filled
    by the applicant updater.  [rng0] is the random source passed in, or
    the one [np.random.RandomState()] constructs when none is. *)
Definition _state_init (env : LendingEnv) (initial_params : Params)
    (rng0 : RandomState) : result State :=
  _applicant_updater env
    {| rng := rng0; params := initial_params;
       bank_cash := bank_starting_cash initial_params;
       applicant_features := None; group := None; group_id := None;
       will_default := None |}
    None.

(** [reset()] keeps the random source of the current state. *)
Definition reset (env : LendingEnv) (initial_params : Params) (state : State)
  : result State :=
  _state_init env initial_params (rng state).

Definition _is_done (state : State) : bool :=
  ltb (bank_cash state) (loan_amount (params state)).

Definition _step_impl (env : LendingEnv) (fresh : RandomState)
    (state : State) (action : LoanDecision) : result State :=
  s1 <- _cash_updater env state (Some action) ;;
  s2 <- _parameter_updater env fresh s1 (Some action) ;;
  _applicant_updater env s2 (Some action).

(** Modelled from the spec: [step] of the missing [core.FairnessEnv], valid
    only while the environment is not terminated; the action type admits
    only the two loan decisions. *)
Definition step (env : LendingEnv) (fresh : RandomState) (state : State)
    (action : LoanDecision) : result State :=
  if _is_done state then Raise PostTerminationStep
  else _step_impl env fresh state action.

(** What an episode shows of a state: the cash and the sampled applicant. *)
Definition observed (s : State)
  : num * option (list num) * option (list Z) * option bool :=
  (bank_cash s, applicant_features s, group s, will_default s).

(** [step] along a sequence of actions, each paired with the random
    source the parameter updater constructs during it; the result lists
    the states after every step. *)
Fixpoint steps (env : LendingEnv) (state : State)
    (actions : list (LoanDecision * RandomState)) : result (list State) :=
  match actions with
  | [] => Ok []
  | (action, fresh) :: rest =>
      s' <- step env fresh state action ;;
      tl <- steps env s' rest ;;
      Ok (s' :: tl)
  end.

(** [reset()] followed by the steps: the trajectory of observations,
    starting with the one after the reset. *)
Definition episode (env : LendingEnv) (initial_params : Params)
    (rng0 : RandomState) (actions : list (LoanDecision * RandomState))
  : result (list (num * option (list num) * option (list Z) * option bool)) :=
  s0 <- _state_init env initial_params rng0 ;;
  tl <- steps env s0 actions ;;
  Ok (map observed (s0 :: tl)).

(** The states an environment can be in: the one after a reset, and the
    one after a step taken from a reachable state that is not done. *)
Inductive reachable (env : LendingEnv) (initial_params : Params)
  : State -> Prop :=
  | reachable_init rng0 s :
      _state_init env initial_params rng0 = Ok s ->
      reachable env initial_params s
  | reachable_step s fresh action s' :
      reachable env initial_params s ->
      _is_done s = false ->
      _step_impl env fresh s action = Ok s' ->
      reachable env initial_params s'.

(** The two environment classes of the module that differ in their
    parameter updater. *)
Definition lending_variant (env : LendingEnv) : Prop :=
  env = BaseLendingEnv \/ env = DelayedImpactEnv.

(** ** Populations with constant cluster components *)

(** What is known of [rng.choice]: whether it rejects the probabilities
    does not depend on the random source, and the index it draws lies
    within them. *)
Definition choice_is_regular : Prop :=
  (forall rng rng' p, choice rng p = None -> choice rng' p = None) /\
  (forall rng p j rng', choice rng p = Some (j, rng') -> (j < length p)%nat).

(** A group mixture in the manner of the delayed-impact parameters: one
    component per weight, each always giving the group [g] and its own
    fixed feature vector. *)
Definition constant_mixture (m : Mixture) : Prop :=
  length (cluster_components m) = length (weights m) /\
  exists (g : list Z) (fs : list (list num)),
    Forall2 (fun (c : Component) f =>
               forall rng, applicant_group (fst (c rng)) = g /\
                           features (fst (c rng)) = f)
            (cluster_components m) fs.

Definition constant_params (p : Params) : Prop :=
  forall g m,
    nth_error (components (applicant_distribution p)) g = Some m ->
    constant_mixture m.

Definition constant_population (s : State) : Prop :=
  constant_params (params s).

(** Two populations that differ at most in the values of their cluster
    weights. *)
Definition same_population_shape (d d0 : Distribution) : Prop :=
  mixture_weights d = mixture_weights d0 /\
  Forall2 (fun m m0 : Mixture =>
             cluster_components m = cluster_components m0 /\
             length (weights m) = length (weights m0))
          (components d) (components d0).

(** A result without its value: whether it returned, or what it raised. *)
Definition outcome {A : Type} (r : result A) : result unit :=
  match r with
  | Ok _ => Ok tt
  | Raise e => Raise e
  end.
End Environment.

(** What the environment keeps fixed, and the sign of the cash, in exact
    arithmetic. *)
Definition cash_invariant {R : PyRandom QNum} (initial_params : @Params QNum R)
    (s : @State QNum R) : Prop :=
  loan_amount (params s) = loan_amount initial_params /\
  interest_rate (params s) = interest_rate initial_params /\
  (0 <= bank_cash s)%Q.

(** ** A concrete random source and population, for evaluation *)

(** A counter as random source: a draw returns the counter modulo the
    number of weights and advances it. *)
Definition counter_choice {N : PyNum} (rng : nat) (p : list num)
  : option (nat * nat) :=
  match p with
  | [] => None
  | _ => Some (Nat.modulo rng (length p), S rng)
  end.

Definition CounterRandom (N : PyNum) : PyRandom N := {|
  RandomState := nat;
  choice := counter_choice
|}.

Section Example.
Context {N : PyNum}.
#[local] Existing Instance CounterRandom.

(** A one-hot vector of length [n] with the one at [i]. *)
Definition one_hot {A : Type} (o z : A) (n i : nat) : list A :=
  map (fun j => if Nat.eqb j i then o else z) (seq 0 n).

(** A cluster component in the manner of the delayed-impact parameters:
    constant one-hot features for cluster [c] of [n], a fixed group
    vector, and an outcome drawn from the counter. *)
Definition credit_cluster (g : list Z) (n c : nat)
  : @Component N (CounterRandom N) :=
  fun rng =>
    ({| features := one_hot one zero n c; applicant_group := g;
        applicant_will_default := Nat.even rng |}, S rng).

Definition credit_group (g : list Z) (w : list num)
  : @Mixture N (CounterRandom N) :=
  {| weights := w;
     cluster_components :=
       map (credit_cluster g (length w)) (seq 0 (length w)) |}.

(** Two groups with the given cluster weights and the given scalars. *)
Definition example_params (gw w0 w1 : list num)
    (loan interest inc lo hi start maxc : num)
  : @Params N (CounterRandom N) :=
  {| applicant_distribution :=
       {| components := [credit_group [1; 0]%Z w0; credit_group [0; 1]%Z w1];
          mixture_weights := gw |};
     loan_amount := loan; interest_rate := interest;
     cluster_shift_increment := inc;
     min_observation := lo; max_observation := hi;
     bank_starting_cash := start; max_cash := maxc |}.

(** A state of group 0 whose applicant sits in cluster [c] of [n]. *)
Definition example_state (p : @Params N (CounterRandom N)) (cash : num)
    (n c : nat) (wd : bool) : @State N (CounterRandom N) :=
  {| rng := 0%nat; params := p; bank_cash := cash;
     applicant_features := Some (one_hot one zero n c);
     group := Some [1; 0]%Z; group_id := Some 0%nat;
     will_default := Some wd |}.
End Example.

(** The scenario of the specification: starting cash 10000, loan amount
    1000, interest rate 0.1, cluster weights [0.5, 0.3, 0.2] and a shift
    increment of 0.4, in exact arithmetic and in binary64. *)
Definition scenario_params_Q : @Params QNum (CounterRandom QNum) :=
  example_params (N := QNum) [1 # 2; 1 # 2] [1 # 2; 3 # 10; 1 # 5]
    [1 # 5; 3 # 10; 1 # 2] 1000 (1 # 10) (2 # 5) 0 1 10000 20000.

Definition scenario_params_F : @Params FloatNum (CounterRandom FloatNum) :=
  example_params (N := FloatNum)
    [0x1p-1; 0x1p-1]%float
    [0x1p-1; 0x1.3333333333333p-2; 0x1.999999999999ap-3]%float
    [0x1.999999999999ap-3; 0x1.3333333333333p-2; 0x1p-1]%float
    1000%float 0x1.999999999999ap-4%float 0x1.999999999999ap-2%float
    0%float 1%float 10000%float 20000%float.

Definition scenario_state_Q (c : nat) (wd : bool)
  : @State QNum (CounterRandom QNum) :=
  example_state scenario_params_Q 10000 3 c wd.

Definition scenario_state_F (c : nat) (wd : bool)
  : @State FloatNum (CounterRandom FloatNum) :=
  example_state scenario_params_F 10000%float 3 c wd.

(** The result of an update that is known to return. *)
Definition returned {A : Type} (default : A) (r : result A) : A :=
  match r with
  | Ok a => a
  | Raise _ => default
  end.

(** The scenario state with the applicant in cluster 1, after an accepted
    default has moved that cluster's mass down. *)
Definition scenario_shifted_Q : @State QNum (CounterRandom QNum) :=
  returned (scenario_state_Q 1 true)
    (_CreditShift_update (R := CounterRandom QNum) 7%nat
       (scenario_state_Q 1 true)
       (Some ACCEPT)).

(** A group whose middle cluster has lost all its mass, and an applicant
    sampled in that cluster. *)
Definition empty_cluster_state_Q : @State QNum (CounterRandom QNum) :=
  example_state
    (example_params (N := QNum) [1 # 2; 1 # 2] [1 # 2; 0; 1 # 2]
       [1 # 5; 3 # 10; 1 # 2] 1000 (1 # 10) (2 # 5) 0 1 10000 20000)
    10000 3 1 true.

(** The scenario run as an environment: the state after the reset, the
    state after one accepted step, and a two-step episode. *)
Definition scenario_initial_Q : @State QNum (CounterRandom QNum) :=
  returned (scenario_state_Q 1 true)
    (_state_init (R := CounterRandom QNum) DelayedImpactEnv scenario_params_Q
       0%nat).

Definition scenario_stepped_Q : @State QNum (CounterRandom QNum) :=
  returned (scenario_state_Q 1 true)
    (_step_impl (R := CounterRandom QNum) DelayedImpactEnv 7%nat
       (scenario_state_Q 1 true) ACCEPT).

Definition scenario_episode_Q (fresh1 fresh2 : nat)
  : list (Q * option (list Q) * option (list Z) * option bool) :=
  returned []
    (episode (R := CounterRandom QNum) DelayedImpactEnv scenario_params_Q
       0%nat [(ACCEPT, fresh1); (REJECT, fresh2)]).

(** The scenario with the bank down to exactly one loan: the state, and
    the state after it has accepted an applicant who defaults. *)
Definition scenario_last_loan_Q : @State QNum (CounterRandom QNum) :=
  set_bank_cash (scenario_state_Q 1 true) 1000.

Definition scenario_broke_Q : @State QNum (CounterRandom QNum) :=
  returned scenario_last_loan_Q
    (_step_impl (R := CounterRandom QNum) DelayedImpactEnv 7%nat
       scenario_last_loan_Q ACCEPT).

(** The scenario with [max_cash] equal to the starting cash, reset on a
    random source whose first applicant repays, and stepped once with an
    accept. *)
Definition tight_params_Q : @Params QNum (CounterRandom QNum) :=
  example_params (N := QNum) [1 # 2; 1 # 2] [1 # 2; 3 # 10; 1 # 5]
    [1 # 5; 3 # 10; 1 # 2] 1000 (1 # 10) (2 # 5) 0 1 10000 10000.

Definition tight_initial_Q : @State QNum (CounterRandom QNum) :=
  returned (scenario_state_Q 1 true)
    (_state_init (R := CounterRandom QNum) BaseLendingEnv tight_params_Q 1%nat).

Definition tight_stepped_Q : @State QNum (CounterRandom QNum) :=
  returned tight_initial_Q
    (_step_impl (R := CounterRandom QNum) BaseLendingEnv 0%nat tight_initial_Q
       ACCEPT).

(** The scenario state with a group vector that names a third group, which
    the population does not have. *)
Definition third_group_state_Q : @State QNum (CounterRandom QNum) :=
  @Build_State QNum (CounterRandom QNum) 0%nat scenario_params_Q 10000%Q
    (Some [0; 1; 0]%Q) (Some [0; 0; 1]%Z) (Some 2%nat) (Some true).

(** A binary64 population whose group 0 has the cluster weights 0.3, 0.2
    and 0.5, with a shift increment of 0.03, and an applicant of that group
    in cluster 0 who defaults: the clamped target is cluster 0 itself. *)
Definition rounding_params_F : @Params FloatNum (CounterRandom FloatNum) :=
  example_params (N := FloatNum)
    [0x1p-1; 0x1p-1]%float
    [0x1.3333333333333p-2; 0x1.999999999999ap-3; 0x1p-1]%float
    [0x1.999999999999ap-3; 0x1.3333333333333p-2; 0x1p-1]%float
    1000%float 0x1.999999999999ap-4%float 0x1.eb851eb851eb8p-6%float
    0%float 1%float 10000%float 20000%float.

Definition rounding_state_F : @State FloatNum (CounterRandom FloatNum) :=
  example_state rounding_params_F 10000%float 3 0 true.

(** A cluster component that draws the group vector of its applicant from
    the random source too: group 0 while the counter is below 100, group 1
    from then on. *)
Definition wavering_cluster (n c : nat) : @Component QNum (CounterRandom QNum) :=
  fun rng =>
    (@Build_Applicant QNum (one_hot 1%Q 0%Q n c)
       (if Nat.ltb rng 100 then [1; 0]%Z else [0; 1]%Z) (Nat.even rng),
     S rng).

(** The scenario with the clusters of its first group replaced by
    wavering ones. *)
Definition wavering_params_Q : @Params QNum (CounterRandom QNum) :=
  set_applicant_distribution scenario_params_Q
    (set_components (applicant_distribution scenario_params_Q)
       [@Build_Mixture QNum (CounterRandom QNum) [1 # 2; 3 # 10; 1 # 5]%Q
          (map (wavering_cluster 3) (seq 0 3));
        credit_group (N := QNum) [0; 1]%Z [1 # 5; 3 # 10; 1 # 2]%Q]).

(** ** The random social graph of [src/infectious/check.py] *)

(** The [random] module: its state after [random.seed(n)], and
    [random.randint(a, b)] with the state it leaves. *)
Class PyRandomInt : Type := {
  RandomModule : Type;
  seed : Z -> RandomModule;
  randint : RandomModule -> Z -> Z -> Z * RandomModule
}.

(** [nx.Graph]: the nodes, and the undirected edges with their weight,
    each pair of nodes at most once. *)
Record Graph : Type := {
  nodes : list Z;
  edges : list (Z * Z * Z)
}.

Definition Graph_new : Graph := {| nodes := []; edges := [] |}.

Definition add_node (G : Graph) (n : Z) : Graph :=
  if existsb (Z.eqb n) (nodes G) then G
  else {| nodes := nodes G ++ [n]; edges := edges G |}.

Definition add_nodes_from (G : Graph) (ns : list Z) : Graph :=
  fold_left add_node ns G.

(** Whether the edge [e] joins [u] and [v], in either direction. *)
Definition joins (u v : Z) (e : Z * Z * Z) : bool :=
  let '(a, b, _) := e in
  (Z.eqb a u && Z.eqb b v) || (Z.eqb a v && Z.eqb b u).

Definition has_edge (G : Graph) (u v : Z) : bool :=
  existsb (joins u v) (edges G).

(** [G.add_edge(u, v, weight=w)]: both nodes are added when missing; an
    edge already there has its weight replaced. *)
Definition add_edge (G : Graph) (u v w : Z) : Graph :=
  let G1 := add_node (add_node G u) v in
  if has_edge G1 u v then
    {| nodes := nodes G1;
       edges := map (fun e => if joins u v e then (fst (fst e), snd (fst e), w)
                              else e) (edges G1) |}
  else {| nodes := nodes G1; edges := edges G1 ++ [(u, v, w)] |}.

(** [range(n)]. *)
Definition py_range (n : nat) : list Z := map Z.of_nat (seq 0 n).

Definition num_nodes : nat := 40.
Definition num_edges : nat := 80.

(** The [while] loop of [random_social_graph], with the number of
    iterations it may still take; [None] when they run out. *)
Fixpoint social_graph_loop {P : PyRandomInt} (fuel : nat) (st : RandomModule)
    (G : Graph) : option Graph :=
  if Nat.ltb (length (edges G)) num_edges then
    match fuel with
    | O => None
    | S fuel' =>
        let '(u, st1) := randint st 0%Z (Z.of_nat num_nodes - 1)%Z in
        let '(v, st2) := randint st1 0%Z (Z.of_nat num_nodes - 1)%Z in
        if negb (Z.eqb u v) && negb (has_edge G u v) then
          let '(weight, st3) := randint st2 1%Z 10%Z in
          social_graph_loop fuel' st3 (add_edge G u v weight)
        else social_graph_loop fuel' st2 G
    end
  else Some G.

Definition random_social_graph {P : PyRandomInt} (fuel : nat) : option Graph :=
  let st := seed 20%Z in
  let G := add_nodes_from Graph_new (py_range num_nodes) in
  social_graph_loop fuel st G.

(** An edge between two different nodes of [range(40)] with a weight
    from 1 to 10. *)
Definition edge_in_range (e : Z * Z * Z) : Prop :=
  let '(u, v, w) := e in
  (u <> v /\ 0 <= u < 40 /\ 0 <= v < 40 /\ 1 <= w <= 10)%Z.

(** No later edge joins the two nodes of an earlier one. *)
Definition edges_distinct (es : list (Z * Z * Z)) : Prop :=
  ForallOrdPairs (fun e1 e2 => joins (fst (fst e1)) (snd (fst e1)) e2 = false) es.

(** What [randint(a, b)] promises: a value from [a] to [b]. *)
Definition randint_in_range (P : PyRandomInt) : Prop :=
  forall st a b, (a <= b)%Z -> (a <= fst (randint st a b) <= b)%Z.

(** What the loop keeps: at most [num_edges] edges, the forty nodes, every
    edge in range, and no pair of nodes joined twice. *)
Definition social_graph_invariant (G : Graph) : Prop :=
  (length (edges G) <= num_edges)%nat /\
  nodes G = py_range num_nodes /\
  Forall edge_in_range (edges G) /\
  edges_distinct (edges G).

(** A linear congruential generator as [random] module, for evaluation. *)
Definition lcg_next (st : Z) : Z :=
  ((st * 1103515245 + 12345) mod 2147483648)%Z.

Definition LcgRandom : PyRandomInt := {|
  RandomModule := Z;
  seed := fun n => n;
  randint := fun st a b =>
    ((a + (lcg_next st / 65536) mod (b - a + 1))%Z, lcg_next st)
|}.

(** * Properties *)

Unset Implicit Arguments.

(** ** Results and sequences *)

Lemma bind_Ok_inv {A B : Type} (r : result A) (k : A -> result B) (b : B) :
  bind r k = Ok b -> exists a, r = Ok a /\ k a = Ok b.
Proof.
  destruct r as [a|e]; simpl; intros H; [exists a; auto | discriminate].
Qed.

Lemma assert_Ok_inv (c : bool) (w : assertion) (u : unit) :
  assert c w = Ok u -> c = true.
Proof. destruct c; simpl; [reflexivity | discriminate]. Qed.

(** Decomposes a hypothesis [x <- r ;; k = Ok b] into its steps. *)
Ltac bind_inv H :=
  let a := fresh "a" in
  let E := fresh "E" in
  apply bind_Ok_inv in H; destruct H as (a & E & H).

Ltac assert_inv H :=
  let u := fresh "u" in
  let E := fresh "E" in
  apply bind_Ok_inv in H; destruct H as (u & E & H);
  apply assert_Ok_inv in E.

Lemma getitem_Ok {A : Type} (l : list A) (i : nat) (x : A) :
  getitem l i = Ok x <-> nth_error l i = Some x.
Proof.
  unfold getitem; destruct (nth_error l i); split; intros H;
    inversion H; reflexivity.
Qed.

Lemma setitem_nth_error {A : Type} (l : list A) :
  forall i v l', setitem l i v = Ok l' ->
  forall j, nth_error l' j = if Nat.eqb j i then Some v else nth_error l j.
Proof.
  induction l as [|x l IH]; intros i v l' H j.
  - destruct i; discriminate.
  - destruct i as [|i]; simpl in H.
    + inversion H; subst; destruct j; reflexivity.
    + bind_inv H. inversion H; subst.
      destruct j as [|j]; simpl; [reflexivity | apply (IH _ _ _ E)].
Qed.

Lemma setitem_length {A : Type} (l : list A) :
  forall i v l', setitem l i v = Ok l' -> length l' = length l.
Proof.
  induction l as [|x l IH]; intros i v l' H.
  - destruct i; discriminate.
  - destruct i as [|i]; simpl in H.
    + inversion H; reflexivity.
    + bind_inv H. inversion H; subst; simpl; f_equal; eauto.
Qed.

Lemma setitem_in_range {A : Type} (l : list A) :
  forall i v, (i < length l)%nat -> exists l', setitem l i v = Ok l'.
Proof.
  induction l as [|x l IH]; intros i v Hi; simpl in Hi; [lia|].
  destruct i as [|i]; simpl; [eauto|].
  destruct (IH i v) as [l' ->]; [lia|]. simpl; eauto.
Qed.

Lemma getitem_in_range {A : Type} (l : list A) (i : nat) :
  (i < length l)%nat -> exists x, getitem l i = Ok x.
Proof.
  intros Hi. unfold getitem.
  destruct (nth_error l i) eqn:E; [eauto|].
  apply nth_error_None in E; lia.
Qed.

Lemma target_cluster_in_range (cluster_id len : nat) (defaulted : bool) :
  (0 < len)%nat -> (target_cluster cluster_id defaulted len < len)%nat.
Proof. unfold target_cluster; destruct defaulted; lia. Qed.

(** ** The shape of a successful credit shift *)

Section CreditShiftFacts.
Context {N : PyNum} {R : PyRandom N}.

Lemma group_id_eqb_true (o : option nat) (i : nat) :
  group_id_eqb o i = true -> o = Some i.
Proof.
  destruct o as [g|]; simpl; [|discriminate].
  intros H; apply Nat.eqb_eq in H; congruence.
Qed.

(** What an accepted application that returns has gone through. *)
Lemma CreditShift_accept_inv (fresh : RandomState) (s s' : State) :
  _CreditShift_update fresh s (Some ACCEPT) = Ok s' ->
  exists gid m cluster_id w cluster_probs' components',
    np_argmax_opt Z.ltb (group s) = Ok gid /\
    group_id s = Some gid /\
    nth_error (components (applicant_distribution (params s))) gid = Some m /\
    np_argmax_opt ltb (applicant_features s) = Ok cluster_id /\
    nth_error (weights m) cluster_id = Some w /\
    ltb zero w = true /\
    shift_mass (weights m) cluster_id
      (target_cluster cluster_id (truthy (will_default s)) (length (weights m)))
      (cluster_shift_increment (params s)) = Ok cluster_probs' /\
    sums_to_one cluster_probs' = true /\
    non_negative cluster_probs' = true /\
    setitem (components (applicant_distribution (params s))) gid
      (set_weights m cluster_probs') = Ok components' /\
    s' = set_params s
           (set_applicant_distribution (params s)
              (set_components (applicant_distribution (params s)) components')).
Proof.
  unfold _CreditShift_update. intros H.
  bind_inv H. rename a into gid, E into Hgid.
  assert_inv H. rename E into Hsync.
  bind_inv H. rename a into m, E into Hm.
  bind_inv H. rename a into rng1, E into Hloop1.
  bind_inv H. rename a into rng2, E into Hloop2.
  bind_inv H. rename a into cluster_id, E into Hcid.
  bind_inv H. rename a into w, E into Hw.
  assert_inv H. rename E into Hpos.
  bind_inv H. rename a into probs', E into Hshift.
  assert_inv H. rename E into Hsum.
  assert_inv H. rename E into Hnn.
  bind_inv H. rename a into comps', E into Hset.
  inversion H; subst s'.
  exists gid, m, cluster_id, w, probs', comps'.
  apply group_id_eqb_true in Hsync.
  apply getitem_Ok in Hm. apply getitem_Ok in Hw.
  repeat split; assumption.
Qed.

(** A rejected application is returned as it is. *)
Lemma CreditShift_reject (fresh : RandomState) (s : State) :
  _CreditShift_update fresh s (Some REJECT) = Ok s.
Proof. reflexivity. Qed.

(** After a successful credit shift the applicant's group carries the
    shifted weights and every other group its old ones. *)
Lemma CreditShift_accept_weights (fresh : RandomState) (s s' : State) :
  _CreditShift_update fresh s (Some ACCEPT) = Ok s' ->
  exists gid cluster_id old new,
    group_id s = Some gid /\
    np_argmax_opt ltb (applicant_features s) = Ok cluster_id /\
    cluster_weights s gid = Some old /\
    shift_mass old cluster_id
      (target_cluster cluster_id (truthy (will_default s)) (length old))
      (cluster_shift_increment (params s)) = Ok new /\
    valid_weights new /\
    forall g, cluster_weights s' g =
              if Nat.eqb g gid then Some new else cluster_weights s g.
Proof.
  intros H. apply CreditShift_accept_inv in H.
  destruct H as (gid & m & cid & w & probs' & comps' & Hg & Hgid & Hm & Hcid
                 & Hw & Hpos & Hshift & Hsum & Hnn & Hset & ->).
  exists gid, cid, (weights m), probs'.
  unfold cluster_weights. rewrite Hm. simpl.
  repeat split; try assumption.
  intros g. rewrite (setitem_nth_error _ _ _ _ Hset g).
  destruct (Nat.eqb g gid); reflexivity.
Qed.
End CreditShiftFacts.

(** ** Exact arithmetic *)

Lemma Qltb_lt (a b : Q) : Qltb a b = true <-> (a < b)%Q.
Proof.
  unfold Qltb. rewrite negb_true_iff. split.
  - intros H. apply Qnot_le_lt. intros Hle.
    apply Qle_bool_iff in Hle. congruence.
  - intros H. destruct (Qle_bool b a) eqn:E; [|reflexivity].
    apply Qle_bool_iff in E. apply Qlt_not_le in H. contradiction.
Qed.

Lemma Qltb_ge (a b : Q) : Qltb a b = false <-> (b <= a)%Q.
Proof.
  unfold Qltb. rewrite negb_false_iff. apply Qle_bool_iff.
Qed.

Lemma fold_left_Qplus_acc (l : list Q) :
  forall a, (fold_left Qplus l a == a + sumQ l)%Q.
Proof.
  unfold sumQ. induction l as [|x l IH]; intros a; simpl.
  - ring.
  - rewrite (IH (a + x)%Q), (IH (0 + x)%Q). ring.
Qed.

Lemma sumQ_cons (x : Q) (l : list Q) : (sumQ (x :: l) == x + sumQ l)%Q.
Proof.
  unfold sumQ at 1. simpl. rewrite fold_left_Qplus_acc. ring.
Qed.

Lemma sumQ_setitem (l : list Q) :
  forall i v l' x,
    setitem l i v = Ok l' -> nth_error l i = Some x ->
    (sumQ l' == sumQ l - x + v)%Q.
Proof.
  induction l as [|y l IH]; intros i v l' x Hset Hnth.
  - destruct i; discriminate.
  - destruct i as [|i]; simpl in Hset, Hnth.
    + inversion Hset; inversion Hnth; subst.
      rewrite !sumQ_cons. ring.
    + bind_inv Hset. inversion Hset; subst.
      rewrite !sumQ_cons, (IH _ _ _ _ E Hnth). ring.
Qed.

Lemma non_negative_Q_iff (l : list Q) :
  non_negative (N := QNum) l = true <-> Forall (fun x => 0 <= x)%Q l.
Proof.
  unfold non_negative. rewrite forallb_forall, Forall_forall.
  split; intros H x Hx; apply Qle_bool_iff, H, Hx.
Qed.

Lemma Forall_setitem {A : Type} (P : A -> Prop) (l : list A) :
  forall i v l', setitem l i v = Ok l' -> Forall P l -> P v -> Forall P l'.
Proof.
  induction l as [|y l IH]; intros i v l' Hset Hl Hv.
  - destruct i; discriminate.
  - inversion Hl; subst. destruct i as [|i]; simpl in Hset.
    + inversion Hset; subst. constructor; assumption.
    + bind_inv Hset. inversion Hset; subst. constructor; eauto.
Qed.

Lemma Forall_nth_error {A : Type} (P : A -> Prop) (l : list A) (i : nat) (x : A) :
  Forall P l -> nth_error l i = Some x -> P x.
Proof.
  intros Hl Hx. rewrite Forall_forall in Hl.
  apply Hl, (nth_error_In _ _ Hx).
Qed.

(** The mass moved is never more than the source holds, and is
    non-negative when the increment is. *)
Lemma py_min_Q_bounds (inc w : Q) :
  (0 <= inc)%Q -> (0 <= w)%Q ->
  (0 <= py_min (N := QNum) inc w)%Q /\ (py_min (N := QNum) inc w <= w)%Q.
Proof.
  intros Hinc Hw. unfold py_min. simpl.
  destruct (Qltb w inc) eqn:E.
  - split; [assumption | apply Qle_refl].
  - apply Qltb_ge in E. split; assumption.
Qed.

(** In exact arithmetic a mass shift keeps the sum of the weights and
    their non-negativity. *)
Lemma shift_mass_Q_conserves (l l' : list Q) (c t : nat) (inc : Q) :
  shift_mass (N := QNum) l c t inc = Ok l' ->
  (sumQ l' == sumQ l)%Q /\
  ((0 <= inc)%Q -> Forall (fun x => 0 <= x)%Q l -> Forall (fun x => 0 <= x)%Q l').
Proof.
  unfold shift_mass. intros H.
  bind_inv H. rename a into w, E into Hw.
  bind_inv H. rename a into w1, E into Hw1.
  rewrite Hw in Hw1. inversion Hw1; subst w1. clear Hw1.
  bind_inv H. rename a into l1, E into Hl1.
  bind_inv H. rename a into w2, E into Hw2.
  apply getitem_Ok in Hw, Hw2.
  split.
  - rewrite (sumQ_setitem _ _ _ _ _ H Hw2), (sumQ_setitem _ _ _ _ _ Hl1 Hw).
    simpl. ring.
  - intros Hinc Hl.
    assert (Hw0 : (0 <= w)%Q) by apply (Forall_nth_error _ _ _ _ Hl Hw).
    destruct (py_min_Q_bounds _ _ Hinc Hw0) as [Hm0 Hmw].
    assert (Hl1nn : Forall (fun x => 0 <= x)%Q l1).
    { apply (Forall_setitem _ _ _ _ _ Hl1 Hl). simpl.
      apply (Qplus_le_l _ _ (py_min (N := QNum) inc w)). ring_simplify. exact Hmw. }
    apply (Forall_setitem _ _ _ _ _ H Hl1nn). simpl.
    assert (Hw20 : (0 <= w2)%Q) by apply (Forall_nth_error _ _ _ _ Hl1nn Hw2).
    rewrite <- (Qplus_0_l 0). apply Qplus_le_compat; assumption.
Qed.

(** ** Cash *)

(** C3. [_CashUpdater.update] leaves the state as it is on reject; on accept
    it takes [loan_amount] off the bank cash when the applicant will
    default and adds [loan_amount * interest_rate] otherwise, touching no
    other field.  With cash 10000, loan amount 1000 and interest rate 0.1
    this gives 10100 on repayment, 9000 on default and 10000 on reject, in
    binary64 as well as in exact arithmetic. *)
Theorem CashUpdater_update_spec :
  (forall (N : PyNum) (R : PyRandom N) (s : @State N R),
      _CashUpdater_update s (Some REJECT) = Ok s /\
      _CashUpdater_update s (Some ACCEPT) =
        Ok (set_bank_cash s
              (if truthy (will_default s)
               then sub (bank_cash s) (loan_amount (params s))
               else add (bank_cash s)
                        (mul (loan_amount (params s))
                             (interest_rate (params s)))))) /\
  (forall c : nat,
      _CashUpdater_update (scenario_state_F c false) (Some ACCEPT) =
        Ok (set_bank_cash (scenario_state_F c false) 10100%float) /\
      _CashUpdater_update (scenario_state_F c true) (Some ACCEPT) =
        Ok (set_bank_cash (scenario_state_F c true) 9000%float) /\
      forall wd, _CashUpdater_update (scenario_state_F c wd) (Some REJECT) =
                 Ok (scenario_state_F c wd)) /\
  (forall c : nat,
      (exists s', _CashUpdater_update (scenario_state_Q c false) (Some ACCEPT) = Ok s'
                  /\ (bank_cash s' == 10100)%Q) /\
      (exists s', _CashUpdater_update (scenario_state_Q c true) (Some ACCEPT) = Ok s'
                  /\ (bank_cash s' == 9000)%Q) /\
      forall wd, exists s',
          _CashUpdater_update (scenario_state_Q c wd) (Some REJECT) = Ok s'
          /\ (bank_cash s' == 10000)%Q).
Proof.
  split; [|split].
  - intros N R s. split; [reflexivity|].
    unfold _CashUpdater_update.
    destruct (truthy (will_default s)); reflexivity.
  - intros c. repeat split.
  - intros c. repeat split.
    + eexists; split; [reflexivity|]. simpl. reflexivity.
    + eexists; split; [reflexivity|]. simpl. reflexivity.
    + intros wd. eexists; split; [reflexivity|]. simpl. reflexivity.
Qed.

(** ** Mass conservation *)

(** In exact arithmetic [valid_weights] is the invariant of the
    specification: the sum is within 1e-6 of 1 and no weight is negative. *)
Lemma valid_weights_Q_iff (w : list Q) :
  valid_weights (N := QNum) w <->
  (Qabs (sumQ w - 1) < 1 # 1000000)%Q /\ Forall (fun x => 0 <= x)%Q w.
Proof.
  unfold valid_weights, sums_to_one. simpl.
  rewrite Qltb_lt, non_negative_Q_iff. reflexivity.
Qed.

(** C1. Whenever [_CreditShift.update] returns from an accepted application,
    every group whose cluster weights summed to 1 within 1e-6 and were
    non-negative before still has weights that sum to 1 within 1e-6 and
    are non-negative.  This holds for any arithmetic: the applicant's group
    has passed the two closing assertions, and no other group is written. *)
Theorem CreditShift_preserves_valid_weights
    (N : PyNum) (R : PyRandom N) (fresh : RandomState) (s s' : State)
    (g : nat) (w : list num) :
  _CreditShift_update fresh s (Some ACCEPT) = Ok s' ->
  cluster_weights s g = Some w ->
  valid_weights w ->
  exists w', cluster_weights s' g = Some w' /\ valid_weights w'.
Proof.
  intros Hupd Hw Hvalid.
  destruct (CreditShift_accept_weights _ _ _ Hupd)
    as (gid & cid & old & new & _ & _ & _ & _ & Hnew & Hframe).
  rewrite Hframe. destruct (Nat.eqb g gid).
  - exists new. split; [reflexivity | exact Hnew].
  - exists w. split; assumption.
Qed.

Lemma CreditShift_preserves_valid_weights_witness :
  exists w', cluster_weights scenario_shifted_Q 0 = Some w'
             /\ valid_weights (N := QNum) w'.
Proof.
  apply (CreditShift_preserves_valid_weights QNum (CounterRandom QNum) 7%nat
           (scenario_state_Q 1 true) scenario_shifted_Q 0%nat
           [1 # 2; 3 # 10; 1 # 5]%Q).
  - vm_compute. reflexivity.
  - reflexivity.
  - split; reflexivity.
Defined.

Section ExactCreditShift.
#[local] Existing Instance QNum.
Context {R : PyRandom QNum}.

(** X17. In exact arithmetic the closing assertions cannot fail: when the
    applicant's group has valid weights, the increment is non-negative and
    the checks before the shift pass, the update returns. *)
Lemma CreditShift_accept_returns_Q
    (fresh rng1 rng2 : RandomState) (s : @State QNum R)
    (gid cid : nat) (m : Mixture) (w : num) :
  np_argmax_opt Z.ltb (group s) = Ok gid ->
  group_id s = Some gid ->
  nth_error (components (applicant_distribution (params s))) gid = Some m ->
  check_sampled_group 10 m (group s) fresh = Ok rng1 ->
  check_argmax 0 (cluster_components m) rng1 = Ok rng2 ->
  np_argmax_opt ltb (applicant_features s) = Ok cid ->
  nth_error (weights m) cid = Some w ->
  (0 < w)%Q ->
  (0 <= cluster_shift_increment (params s))%Q ->
  valid_weights (weights m) ->
  exists s', _CreditShift_update fresh s (Some ACCEPT) = Ok s'.
Proof.
  intros Hg Hgid Hm Hl1 Hl2 Hcid Hw Hpos Hinc Hvalid.
  apply valid_weights_Q_iff in Hvalid. destruct Hvalid as [Hsum Hnn].
  assert (Hlen : (cid < length (weights m))%nat).
  { apply nth_error_Some. rewrite Hw. discriminate. }
  assert (Hgidlen : (gid < length (components (applicant_distribution (params s))))%nat).
  { apply nth_error_Some. rewrite Hm. discriminate. }
  pose (t := target_cluster cid (truthy (will_default s)) (length (weights m))).
  assert (Ht : (t < length (weights m))%nat)
    by (apply target_cluster_in_range; lia).
  (* the two item updates are in range *)
  destruct (setitem_in_range (weights m) cid
              (sub w (py_min (cluster_shift_increment (params s)) w)) Hlen)
    as [l1 Hl1set].
  assert (Ht1 : (t < length l1)%nat)
    by (rewrite (setitem_length _ _ _ _ Hl1set); exact Ht).
  destruct (getitem_in_range l1 t Ht1) as [w2 Hw2].
  destruct (setitem_in_range l1 t
              (add w2 (py_min (cluster_shift_increment (params s)) w)) Ht1)
    as [l2 Hl2set].
  assert (Hshift : shift_mass (N := QNum) (weights m) cid t
                     (cluster_shift_increment (params s)) = Ok l2).
  { unfold shift_mass. unfold getitem at 1 2. rewrite Hw. cbn [bind].
    rewrite Hl1set. cbn [bind]. rewrite Hw2. cbn [bind]. exact Hl2set. }
  destruct (shift_mass_Q_conserves _ _ _ _ _ Hshift) as [Hsum' Hnn'].
  specialize (Hnn' Hinc Hnn).
  assert (Hvalid' : valid_weights (N := QNum) l2).
  { apply valid_weights_Q_iff. split; [|exact Hnn'].
    rewrite Hsum'. exact Hsum. }
  destruct Hvalid' as [Hs2 Hn2].
  destruct (setitem_in_range (components (applicant_distribution (params s))) gid
              (set_weights m l2) Hgidlen) as [comps' Hcomps].
  assert (Hpos' : ltb zero w = true)
    by (change (Qltb 0 w = true); apply Qltb_lt; exact Hpos).
  eexists. unfold _CreditShift_update.
  rewrite Hg. cbn [bind]. rewrite Hgid. cbn [group_id_eqb].
  rewrite Nat.eqb_refl. cbn [assert bind].
  unfold getitem at 1. rewrite Hm. cbn [bind].
  rewrite Hl1. cbn [bind]. rewrite Hl2. cbn [bind].
  rewrite Hcid. cbn [bind].
  unfold getitem at 1. rewrite Hw. cbn [bind].
  rewrite Hpos'. cbn [assert bind].
  fold t. rewrite Hshift. cbn [bind].
  rewrite Hs2, Hn2. cbn [assert bind].
  rewrite Hcomps. cbn [bind]. reflexivity.
Qed.
End ExactCreditShift.

(** ** Which errors the stages of the credit shift can raise *)

Section CreditShiftErrors.
Context {N : PyNum} {R : PyRandom N}.

(** Peels the first stage off a failed sequence. *)
Ltac raise_inv H :=
  match type of H with
  | bind ?r _ = Raise _ =>
      let a := fresh "a" in
      let e := fresh "e" in
      let E := fresh "E" in
      destruct r as [a|e] eqn:E; cbn [bind] in H
  end.

Lemma getitem_Raise {A : Type} (l : list A) (i : nat) (e : error) :
  getitem l i = Raise e -> e = IndexError.
Proof.
  unfold getitem. destruct (nth_error l i); intros H; inversion H; reflexivity.
Qed.

Lemma setitem_Raise {A : Type} (l : list A) :
  forall i v e, setitem l i v = Raise e -> e = IndexError.
Proof.
  induction l as [|x l IH]; intros i v e H.
  - destruct i; inversion H; reflexivity.
  - destruct i as [|i]; simpl in H; [discriminate|].
    raise_inv H; [discriminate|]. inversion H; subst. eauto.
Qed.

Lemma np_argmax_Raise {A : Type} (lt : A -> A -> bool) (l : list A) (e : error) :
  np_argmax lt l = Raise e -> e = ValueError.
Proof. destruct l; intros H; inversion H; reflexivity. Qed.

Lemma np_argmax_opt_Raise {A : Type} (lt : A -> A -> bool) (o : option (list A))
    (e : error) :
  np_argmax_opt lt o = Raise e -> e = ValueError.
Proof.
  destruct o; simpl; [apply np_argmax_Raise | discriminate].
Qed.

Lemma assert_Raise (c : bool) (w : assertion) (e : error) :
  assert c w = Raise e -> c = false /\ e = AssertionError w.
Proof. destruct c; intros H; inversion H; auto. Qed.

Lemma rng_choice_Raise (rng : RandomState) (p : list num) (e : error) :
  rng_choice rng p = Raise e -> e = ValueError.
Proof.
  unfold rng_choice. destruct (choice rng p); intros H; inversion H; reflexivity.
Qed.

Lemma Mixture_sample_Raise (m : Mixture) (rng : RandomState) (e : error) :
  Mixture_sample m rng = Raise e -> e = ValueError \/ e = IndexError.
Proof.
  unfold Mixture_sample. intros H.
  raise_inv H; [|inversion H; subst; left; eapply rng_choice_Raise; eauto].
  destruct a as [j rng1].
  raise_inv H; [discriminate|].
  inversion H; subst. right. eapply getitem_Raise; eauto.
Qed.

Lemma check_sampled_group_Raise (n : nat) (m : Mixture) (g : option (list Z)) :
  forall rng e,
    check_sampled_group n m g rng = Raise e ->
    e = ValueError \/ e = IndexError \/ e = AssertionError SampledOtherGroup.
Proof.
  induction n as [|n IH]; intros rng e H; simpl in H; [discriminate|].
  raise_inv H.
  - destruct a as [a rng1].
    raise_inv H; [eauto|].
    inversion H; subst. apply assert_Raise in E0. tauto.
  - inversion H; subst.
    destruct (Mixture_sample_Raise _ _ _ E); auto.
Qed.

Lemma check_argmax_Raise (cs : list Component) :
  forall idx rng e,
    check_argmax idx cs rng = Raise e ->
    e = ValueError \/ e = AssertionError ArgmaxIsNotIndex.
Proof.
  induction cs as [|c cs IH]; intros idx rng e H; simpl in H; [discriminate|].
  destruct (c rng) as [a rng1].
  raise_inv H.
  - raise_inv H; [eauto|].
    inversion H; subst. apply assert_Raise in E0. tauto.
  - inversion H; subst. left. eapply np_argmax_Raise; eauto.
Qed.

Lemma shift_mass_Raise (l : list num) (c t : nat) (inc : num) (e : error) :
  shift_mass l c t inc = Raise e -> e = IndexError.
Proof.
  unfold shift_mass. intros H.
  repeat (raise_inv H;
          [| inversion H; subst;
             first [eapply getitem_Raise; eassumption
                   | eapply setitem_Raise; eassumption]]).
  eapply setitem_Raise; eassumption.
Qed.

(** The zero-mass assertion is the only stage that raises its error, and
    it does so only on a cluster whose weight is not positive. *)
Lemma CreditShift_no_mass_inv (fresh : RandomState) (s : State) :
  _CreditShift_update fresh s (Some ACCEPT) =
    Raise (AssertionError ClusterHasNoMass) ->
  exists w, current_cluster_weight s = Ok w /\ ltb zero w = false.
Proof.
  unfold _CreditShift_update, current_cluster_weight. intros H.
  destruct (np_argmax_opt Z.ltb (group s)) as [gid|e] eqn:Hg; cbn [bind] in H;
    [|apply np_argmax_opt_Raise in Hg; congruence].
  destruct (assert (group_id_eqb (group_id s) gid) GroupIdOutOfSync)
    as [u|e] eqn:Hsync; cbn [bind] in H;
    [|apply assert_Raise in Hsync; destruct Hsync; congruence].
  destruct (getitem (components (applicant_distribution (params s))) gid)
    as [m|e] eqn:Hm; cbn [bind] in H;
    [|apply getitem_Raise in Hm; congruence].
  destruct (check_sampled_group 10 m (group s) fresh) as [rng1|e] eqn:Hl1;
    cbn [bind] in H;
    [|apply check_sampled_group_Raise in Hl1;
      destruct Hl1 as [|[|]]; congruence].
  destruct (check_argmax 0 (cluster_components m) rng1) as [rng2|e] eqn:Hl2;
    cbn [bind] in H;
    [|apply check_argmax_Raise in Hl2; destruct Hl2; congruence].
  destruct (np_argmax_opt ltb (applicant_features s)) as [cid|e] eqn:Hcid;
    cbn [bind] in H;
    [|apply np_argmax_opt_Raise in Hcid; congruence].
  destruct (getitem (weights m) cid) as [w|e] eqn:Hw; cbn [bind] in H;
    [|apply getitem_Raise in Hw; congruence].
  exists w. split.
  { cbn [bind]. rewrite ?Hm. cbn [bind]. rewrite ?Hcid. cbn [bind].
    rewrite ?Hw. reflexivity. }
  destruct (assert (ltb zero w) ClusterHasNoMass) as [u1|e] eqn:Hpos;
    cbn [bind] in H;
    [|apply assert_Raise in Hpos; tauto].
  destruct (shift_mass (weights m) cid
              (target_cluster cid (truthy (will_default s)) (length (weights m)))
              (cluster_shift_increment (params s))) as [probs'|e] eqn:Hshift;
    cbn [bind] in H;
    [|apply shift_mass_Raise in Hshift; congruence].
  destruct (assert (sums_to_one probs') ProbsDoNotSumToOne) as [u2|e] eqn:Hsum;
    cbn [bind] in H;
    [|apply assert_Raise in Hsum; destruct Hsum; congruence].
  destruct (assert (non_negative probs') NegativeProb) as [u3|e] eqn:Hnn;
    cbn [bind] in H;
    [|apply assert_Raise in Hnn; destruct Hnn; congruence].
  destruct (setitem (components (applicant_distribution (params s))) gid
              (set_weights m probs')) as [comps'|e] eqn:Hset;
    cbn [bind] in H; [discriminate|].
  apply setitem_Raise in Hset; congruence.
Qed.

(** C9. When the weight of the accepted applicant's current cluster is
    zero (not positive), [_CreditShift.update] raises instead of returning
    a state; when it is positive, the zero-mass assertion is not what the
    update raises, if it raises at all. *)
Theorem CreditShift_fails_fast_on_empty_cluster
    (fresh : RandomState) (s : State) (w : num) :
  current_cluster_weight s = Ok w ->
  (ltb zero w = false ->
   exists e, _CreditShift_update fresh s (Some ACCEPT) = Raise e) /\
  (ltb zero w = true ->
   _CreditShift_update fresh s (Some ACCEPT) <>
     Raise (AssertionError ClusterHasNoMass)).
Proof.
  intros Hcur. split.
  - intros Hzero.
    destruct (_CreditShift_update fresh s (Some ACCEPT)) as [s'|e] eqn:Hupd;
      [|eauto].
    exfalso.
    apply CreditShift_accept_inv in Hupd.
    destruct Hupd as (gid & m & cid & w' & _ & _ & Hg & _ & Hm & Hcid & Hw
                      & Hpos & _).
    unfold current_cluster_weight in Hcur.
    rewrite Hg in Hcur. cbn [bind] in Hcur.
    unfold getitem in Hcur at 1. rewrite Hm in Hcur. cbn [bind] in Hcur.
    rewrite Hcid in Hcur. cbn [bind] in Hcur.
    unfold getitem in Hcur. rewrite Hw in Hcur.
    inversion Hcur; subst. congruence.
  - intros Hpos Hraise.
    apply CreditShift_no_mass_inv in Hraise.
    destruct Hraise as (w' & Hcur' & Hzero).
    rewrite Hcur in Hcur'. inversion Hcur'; subst. congruence.
Qed.
End CreditShiftErrors.

Lemma CreditShift_fails_fast_on_empty_cluster_witness :
  exists e,
    _CreditShift_update (R := CounterRandom QNum) 7%nat empty_cluster_state_Q
      (Some ACCEPT) = Raise e.
Proof.
  apply (proj1 (@CreditShift_fails_fast_on_empty_cluster QNum
                  (CounterRandom QNum) 7%nat empty_cluster_state_Q 0%Q
                  eq_refl)).
  reflexivity.
Defined.

(** Zero is not positive in either arithmetic, so a cluster of weight
    exactly zero is one the zero-mass assertion rejects. *)
Lemma zero_is_not_positive :
  @ltb QNum zero zero = false /\ @ltb FloatNum zero zero = false.
Proof. split; reflexivity. Qed.

(** ** Frame of the credit shift *)

Section CreditShiftFrame.
Context {N : PyNum} {R : PyRandom N}.

(** The update never reads [state.rng]: around another random source it
    does the same, and leaves that source in place. *)
Lemma CreditShift_ignores_rng (fresh r : RandomState) (s : State)
    (action : option LoanDecision) :
  _CreditShift_update fresh (set_rng s r) action =
  (s' <- _CreditShift_update fresh s action ;; Ok (set_rng s' r)).
Proof.
  unfold _CreditShift_update.
  destruct action as [[|]|]; try reflexivity;
    cbn [set_rng params group group_id applicant_features will_default];
    repeat match goal with
      | |- bind ?x _ = bind (bind ?x _) _ =>
          destruct x; cbn [bind]; [|reflexivity]
      end; reflexivity.
Qed.

(** The fields a returning accepted update leaves as they were. *)
Lemma CreditShift_keeps_fields (fresh : RandomState) (s s' : State) :
  _CreditShift_update fresh s (Some ACCEPT) = Ok s' ->
  rng s' = rng s /\ bank_cash s' = bank_cash s /\
  applicant_of s' = applicant_of s /\
  set_applicant_distribution (params s') (applicant_distribution (params s))
    = params s.
Proof.
  intros Hupd. apply CreditShift_accept_inv in Hupd.
  destruct Hupd as (gid & m & cid & w & probs' & comps' & _ & _ & _ & _
                    & _ & _ & _ & _ & _ & _ & ->).
  repeat (split; [reflexivity|]).
  destruct (params s) as [d la ir csi lo hi start maxc]. reflexivity.
Qed.

(** C10. A returning accepted update writes only the cluster weights of
    the applicant's own group: the random source, the cash, the applicant
    fields, the scalar parameters, the top-level mixture weights, the other
    groups and the cluster components of the applicant's group are as
    before; and the update does not depend on [state.rng], its draws coming
    from the freshly constructed source. *)
Theorem CreditShift_frame (fresh : RandomState) (s s' : State) :
  _CreditShift_update fresh s (Some ACCEPT) = Ok s' ->
  rng s' = rng s /\
  bank_cash s' = bank_cash s /\
  applicant_features s' = applicant_features s /\
  group s' = group s /\
  group_id s' = group_id s /\
  will_default s' = will_default s /\
  set_applicant_distribution (params s') (applicant_distribution (params s))
    = params s /\
  mixture_weights (applicant_distribution (params s'))
    = mixture_weights (applicant_distribution (params s)) /\
  length (components (applicant_distribution (params s')))
    = length (components (applicant_distribution (params s))) /\
  (forall g, group_id s <> Some g ->
     nth_error (components (applicant_distribution (params s'))) g
     = nth_error (components (applicant_distribution (params s))) g) /\
  (forall g m, group_id s = Some g ->
     nth_error (components (applicant_distribution (params s))) g = Some m ->
     exists w',
       nth_error (components (applicant_distribution (params s'))) g
       = Some (set_weights m w')) /\
  (forall r, _CreditShift_update fresh (set_rng s r) (Some ACCEPT)
             = Ok (set_rng s' r)).
Proof.
  intros Hupd.
  assert (Hrng : forall r, _CreditShift_update fresh (set_rng s r) (Some ACCEPT)
                           = Ok (set_rng s' r))
    by (intros r; rewrite CreditShift_ignores_rng, Hupd; reflexivity).
  destruct (CreditShift_keeps_fields _ _ _ Hupd) as (Hr & Hc & Happ & Hpar).
  unfold applicant_of in Happ. injection Happ as Hf Hg Hi Hwd.
  do 6 (split; [assumption|]). split; [exact Hpar|]. clear Hr Hc Hf Hg Hi Hwd Hpar.
  apply CreditShift_accept_inv in Hupd.
  destruct Hupd as (gid & m & cid & w & probs' & comps' & _ & Hgid & Hm & _
                    & _ & _ & _ & _ & _ & Hset & ->).
  cbn [set_params set_applicant_distribution set_components rng params
       bank_cash applicant_features group group_id will_default
       applicant_distribution mixture_weights components].
  split; [reflexivity|split; [|split; [|split]]].
  - apply (setitem_length _ _ _ _ Hset).
  - intros g Hg. rewrite (setitem_nth_error _ _ _ _ Hset g).
    destruct (Nat.eqb g gid) eqn:E; [|reflexivity].
    apply Nat.eqb_eq in E. subst g. congruence.
  - intros g m0 Hg Hm0. rewrite Hgid in Hg. inversion Hg; subst g.
    rewrite Hm in Hm0. inversion Hm0; subst m0.
    exists probs'. rewrite (setitem_nth_error _ _ _ _ Hset gid), Nat.eqb_refl.
    reflexivity.
  - exact Hrng.
Qed.
End CreditShiftFrame.

Lemma CreditShift_frame_witness :
  rng scenario_shifted_Q = rng (scenario_state_Q 1 true) /\
  bank_cash scenario_shifted_Q = bank_cash (scenario_state_Q 1 true) /\
  cluster_weights scenario_shifted_Q 1 = cluster_weights (scenario_state_Q 1 true) 1.
Proof.
  destruct (@CreditShift_frame QNum (CounterRandom QNum) 7%nat
              (scenario_state_Q 1 true) scenario_shifted_Q)
    as (Hrng & Hcash & _ & _ & _ & _ & _ & _ & _ & Hother & _).
  - vm_compute. reflexivity.
  - split; [exact Hrng|split; [exact Hcash|]].
    unfold cluster_weights. rewrite (Hother 1%nat); [reflexivity|].
    simpl. discriminate.
Defined.

(** ** The credit shift in the words of the specification *)

Lemma py_min_Q_is_Qmin (a b : Q) : (py_min (N := QNum) a b == Qmin a b)%Q.
Proof.
  unfold py_min. simpl. destruct (Qltb b a) eqn:E.
  - apply Qltb_lt in E. symmetry. apply Q.min_r. apply Qlt_le_weak, E.
  - apply Qltb_ge in E. symmetry. apply Q.min_l, E.
Qed.

(** With a valid source index the clamped target is the neighbour below
    on default and the neighbour above on repayment, stopping at the two
    ends of the cluster array. *)
Lemma target_cluster_saturates (cluster_id len : nat) (defaulted : bool) :
  (cluster_id < len)%nat ->
  target_cluster cluster_id defaulted len =
    if defaulted then Nat.pred cluster_id
    else Nat.min (S cluster_id) (len - 1).
Proof. unfold target_cluster. destruct defaulted; lia. Qed.

Lemma Forall2_Qeq_pointwise (new old : list Q) :
  length new = length old ->
  (forall j x, nth_error old j = Some x ->
               exists y, nth_error new j = Some y /\ (y == x)%Q) ->
  Forall2 Qeq new old.
Proof.
  revert old. induction new as [|y new IH]; intros [|x old] Hlen Hpt;
    simpl in Hlen; try discriminate; constructor.
  - destruct (Hpt 0%nat x eq_refl) as (y' & Hy' & Heq).
    inversion Hy'; subst. exact Heq.
  - apply IH; [lia|]. intros j x' Hx'. apply (Hpt (S j) x' Hx').
Qed.

(** What [shift_mass] leaves at every index, in any arithmetic: the source
    holds its weight less the mass, and the target, read after that, its
    weight plus the mass. *)
Lemma shift_mass_pointwise {N : PyNum} (old new : list num) (c t : nat)
    (inc w : num) :
  shift_mass old c t inc = Ok new ->
  nth_error old c = Some w ->
  forall j,
    nth_error new j =
      let mass := py_min inc w in
      let after_source :=
        if Nat.eqb j c then Some (sub w mass) else nth_error old j in
      if Nat.eqb j t then option_map (fun x => add x mass) after_source
      else after_source.
Proof.
  unfold shift_mass. intros H Hw j.
  bind_inv H. apply getitem_Ok in E. rewrite Hw in E. inversion E; subst a.
  bind_inv H. apply getitem_Ok in E0. rewrite Hw in E0. inversion E0; subst a.
  bind_inv H. rename a into l1, E1 into Hl1.
  bind_inv H. rename a into w2, E1 into Hw2.
  apply getitem_Ok in Hw2.
  rewrite (setitem_nth_error _ _ _ _ H j). cbv zeta.
  destruct (Nat.eqb j t) eqn:Ejt.
  - apply Nat.eqb_eq in Ejt. subst j.
    rewrite (setitem_nth_error _ _ _ _ Hl1 t) in Hw2. rewrite Hw2. reflexivity.
  - apply (setitem_nth_error _ _ _ _ Hl1 j).
Qed.

(** [shift_mass] keeps the number of weights. *)
Lemma shift_mass_length {N : PyNum} (l l' : list num) (c t : nat) (inc : num) :
  shift_mass l c t inc = Ok l' -> length l' = length l.
Proof.
  unfold shift_mass. intros H.
  bind_inv H. bind_inv H. bind_inv H. bind_inv H.
  rewrite (setitem_length _ _ _ _ H). apply (setitem_length _ _ _ _ E1).
Qed.

(** What [shift_mass] leaves at every index, in exact arithmetic. *)
Lemma shift_mass_Q_pointwise (old new : list Q) (c t : nat) (inc w : Q) :
  shift_mass (N := QNum) old c t inc = Ok new ->
  nth_error old c = Some w ->
  length new = length old /\
  forall j x, nth_error old j = Some x ->
    exists y, nth_error new j = Some y /\
      (y == x - (if Nat.eqb j c then Qmin inc w else 0)
              + (if Nat.eqb j t then Qmin inc w else 0))%Q.
Proof.
  unfold shift_mass. intros H Hw.
  change (@num QNum) with Q in *.
  bind_inv H. rename a into w0, E into Hw0.
  apply getitem_Ok in Hw0. rewrite Hw in Hw0. inversion Hw0; subst w0.
  bind_inv H. rename a into w1, E into Hw1.
  apply getitem_Ok in Hw1. rewrite Hw in Hw1. inversion Hw1; subst w1.
  bind_inv H. rename a into l1, E into Hl1.
  bind_inv H. rename a into w2, E into Hw2.
  apply getitem_Ok in Hw2.
  split.
  - rewrite (setitem_length _ _ _ _ H). apply (setitem_length _ _ _ _ Hl1).
  - intros j x Hx.
    rewrite (setitem_nth_error _ _ _ _ H j).
    rewrite (setitem_nth_error _ _ _ _ Hl1 t) in Hw2.
    pose proof (py_min_Q_is_Qmin inc w) as Hmin. simpl in Hmin.
    destruct (Nat.eqb j t) eqn:Ejt.
    + apply Nat.eqb_eq in Ejt. subst j.
      eexists. split; [reflexivity|]. simpl.
      destruct (Nat.eqb t c) eqn:Etc.
      * apply Nat.eqb_eq in Etc. subst t.
        rewrite Hw in Hx. inversion Hx; subst x.
        inversion Hw2; subst w2. simpl. rewrite Hmin. ring.
      * rewrite Hx in Hw2. inversion Hw2; subst w2. rewrite Hmin. ring.
    + rewrite (setitem_nth_error _ _ _ _ Hl1 j).
      destruct (Nat.eqb j c) eqn:Ejc.
      * apply Nat.eqb_eq in Ejc. subst j.
        rewrite Hw in Hx. inversion Hx; subst x.
        eexists. split; [reflexivity|]. simpl. rewrite Hmin. ring.
      * exists x. split; [exact Hx|]. ring.
Qed.

(** C2. On reject [_CreditShift.update] changes nothing.  On accept, in
    any arithmetic, a returning update has taken the current cluster [cid]
    as the argmax of the applicant's features and the target as the cluster
    below on default and above on repayment, saturating at index 0 and at
    the last index.  With [mass] the smaller of the increment and the weight
    [w] of [cid], it has written [w - mass] at [cid] and then added [mass]
    to what the target holds, in the weights of the applicant's group; all
    other weights, and the weights of the other groups, are the old ones.
    When the target is [cid] itself that weight is [(w - mass) + mass]:
    in exact arithmetic every weight then keeps its value.  In the
    scenario of the specification (weights 0.5, 0.3, 0.2, increment 0.4)
    the two saturated shifts leave the binary64 weights exactly as they
    were, and an accepted default in cluster 1, whose weight 0.3 is below
    the increment, moves all of it to cluster 0. *)
Theorem CreditShift_update_spec :
  (forall (N : PyNum) (R : PyRandom N) (fresh : RandomState) (s : @State N R),
      _CreditShift_update fresh s (Some REJECT) = Ok s) /\
  (forall (N : PyNum) (R : PyRandom N) (fresh : RandomState)
          (s s' : @State N R),
      _CreditShift_update fresh s (Some ACCEPT) = Ok s' ->
      exists (gid cid : nat) (old new : list num) (w : num),
        group_id s = Some gid /\
        np_argmax_opt ltb (applicant_features s) = Ok cid /\
        cluster_weights s gid = Some old /\
        cluster_weights s' gid = Some new /\
        nth_error old cid = Some w /\
        let target :=
          if truthy (will_default s) then Nat.pred cid
          else Nat.min (S cid) (length old - 1) in
        let mass :=
          if ltb w (cluster_shift_increment (params s)) then w
          else cluster_shift_increment (params s) in
        (target < length old)%nat /\
        length new = length old /\
        (forall j,
           nth_error new j =
             if Nat.eqb j target then
               if Nat.eqb j cid then Some (add (sub w mass) mass)
               else option_map (fun x => add x mass) (nth_error old j)
             else if Nat.eqb j cid then Some (sub w mass)
             else nth_error old j) /\
        (forall g, g <> gid -> cluster_weights s' g = cluster_weights s g)) /\
  (forall (R : PyRandom QNum) (fresh : RandomState) (s s' : @State QNum R),
      _CreditShift_update fresh s (Some ACCEPT) = Ok s' ->
      exists (gid cid : nat) (old new : list Q) (w : Q),
        group_id s = Some gid /\
        np_argmax_opt Qltb (applicant_features s) = Ok cid /\
        cluster_weights s gid = Some old /\
        cluster_weights s' gid = Some new /\
        nth_error old cid = Some w /\
        let target :=
          if truthy (will_default s) then Nat.pred cid
          else Nat.min (S cid) (length old - 1) in
        let mass := Qmin (cluster_shift_increment (params s)) w in
        (target < length old)%nat /\
        length new = length old /\
        (forall j x, nth_error old j = Some x ->
           exists y, nth_error new j = Some y /\
             (y == x - (if Nat.eqb j cid then mass else 0)
                     + (if Nat.eqb j target then mass else 0))%Q) /\
        (target = cid -> Forall2 Qeq new old)) /\
  (weights_after
     (_CreditShift_update (R := CounterRandom FloatNum) 7%nat
        (scenario_state_F 2 false) (Some ACCEPT)) 0
   = cluster_weights (scenario_state_F 2 false) 0 /\
   weights_after
     (_CreditShift_update (R := CounterRandom FloatNum) 7%nat
        (scenario_state_F 0 true) (Some ACCEPT)) 0
   = cluster_weights (scenario_state_F 0 true) 0 /\
   weights_after
     (_CreditShift_update (R := CounterRandom FloatNum) 7%nat
        (scenario_state_F 1 true) (Some ACCEPT)) 0
   = Some [0x1.999999999999ap-1; 0; 0x1.999999999999ap-3]%float /\
   exists new : list Q,
     weights_after
       (_CreditShift_update (R := CounterRandom QNum) 7%nat
          (scenario_state_Q 1 true) (Some ACCEPT)) 0 = Some new /\
     Forall2 Qeq new [4 # 5; 0; 1 # 5]%Q).
Proof.
  split; [|split; [|split]].
  - intros N R fresh s. reflexivity.
  - intros N R fresh s s' Hupd.
    destruct (CreditShift_accept_weights _ _ _ Hupd)
      as (gid & cid & old & new & Hgid & Hcid & Hold & Hshift & _ & Hframe).
    assert (Hw : exists w, nth_error old cid = Some w).
    { unfold shift_mass in Hshift. bind_inv Hshift.
      apply getitem_Ok in E. eauto. }
    destruct Hw as [w Hw].
    assert (Hlen : (cid < length old)%nat).
    { apply nth_error_Some. rewrite Hw. discriminate. }
    exists gid, cid, old, new, w.
    pose proof (Hframe gid) as Hnew. rewrite Nat.eqb_refl in Hnew.
    rewrite (target_cluster_saturates _ _ _ Hlen) in Hshift.
    repeat (split; [assumption|]).
    cbv zeta. split; [|split; [|split]].
    + destruct (truthy (will_default s)); lia.
    + apply (shift_mass_length _ _ _ _ _ Hshift).
    + intros j.
      rewrite (shift_mass_pointwise _ _ _ _ _ _ Hshift Hw j).
      cbv zeta. unfold py_min.
      destruct (Nat.eqb j _); destruct (Nat.eqb j cid); reflexivity.
    + intros g Hg. rewrite Hframe.
      destruct (Nat.eqb_spec g gid); [contradiction|reflexivity].
  - intros R fresh s s' Hupd.
    destruct (CreditShift_accept_weights _ _ _ Hupd)
      as (gid & cid & old & new & Hgid & Hcid & Hold & Hshift & _ & Hframe).
    assert (Hw : exists w, nth_error old cid = Some w).
    { unfold shift_mass in Hshift. bind_inv Hshift.
      apply getitem_Ok in E. eauto. }
    destruct Hw as [w Hw].
    assert (Hlen : (cid < length old)%nat).
    { apply nth_error_Some. change (@num QNum) with Q in *.
      rewrite Hw. discriminate. }
    exists gid, cid, old, new, w.
    rewrite Hframe, Nat.eqb_refl.
    rewrite (target_cluster_saturates _ _ _ Hlen) in Hshift.
    destruct (shift_mass_Q_pointwise _ _ _ _ _ _ Hshift Hw) as [Hlen' Hpt].
    repeat (split; [assumption || reflexivity|]).
    change (@num QNum) with Q in *.
    split; [|split; [exact Hlen'|split; [exact Hpt|]]].
    + destruct (truthy (will_default s)); lia.
    + intros Heq. apply Forall2_Qeq_pointwise; [exact Hlen'|].
      intros j x Hx. destruct (Hpt j x Hx) as (y & Hy & Heqy).
      exists y. split; [exact Hy|]. rewrite Heqy, Heq.
      destruct (Nat.eqb j cid); ring.
  - repeat split; try (vm_compute; reflexivity).
    eexists. split; [vm_compute; reflexivity|].
    repeat constructor; reflexivity.
Qed.

Lemma CreditShift_update_spec_witness :
  exists new : list Q,
    cluster_weights scenario_shifted_Q 0 = Some new /\ length new = 3%nat.
Proof.
  destruct (proj1 (proj2 CreditShift_update_spec) QNum (CounterRandom QNum)
              7%nat (scenario_state_Q 1 true) scenario_shifted_Q)
    as (gid & cid & old & new & w & Hgid & _ & Hold & Hnew & _ & _ & Hlen & _).
  - vm_compute. reflexivity.
  - exists new. inversion Hgid; subst gid.
    inversion Hold; subst old. split; [exact Hnew | exact Hlen].
Defined.

(** In binary64 a shift onto the same cluster changes its weight: with the
    weights 0.3, 0.2, 0.5 and the increment 0.03 an accepted default in
    cluster 0 is clamped to cluster 0, and [(0.3 - 0.03) + 0.03] is the
    binary64 number next above 0.3. *)
Lemma CreditShift_same_cluster_shift_rounds :
  np_argmax_opt (@ltb FloatNum) (applicant_features rounding_state_F)
  = Ok 0%nat /\
  target_cluster 0 (truthy (will_default rounding_state_F)) 3 = 0%nat /\
  cluster_weights rounding_state_F 0
  = Some [0x1.3333333333333p-2; 0x1.999999999999ap-3; 0x1p-1]%float /\
  weights_after
    (_CreditShift_update (R := CounterRandom FloatNum) 7%nat
       rounding_state_F (Some ACCEPT)) 0
  = Some [0x1.3333333333334p-2; 0x1.999999999999ap-3; 0x1p-1]%float /\
  weights_after
    (_CreditShift_update (R := CounterRandom FloatNum) 7%nat
       rounding_state_F (Some ACCEPT)) 0
  <> cluster_weights rounding_state_F 0.
Proof.
  repeat split; try (vm_compute; reflexivity).
  intros H.
  apply (f_equal (fun o : option (list float) =>
                    match o with
                    | Some (a :: _) => PrimFloat.eqb a 0x1.3333333333333p-2
                    | _ => true
                    end)) in H.
  vm_compute in H. discriminate.
Qed.

(** ** The updaters inside a step *)

Section StepFacts.
Context {N : PyNum} {R : PyRandom N}.

Lemma CashUpdater_update_Ok (s : State) (action : LoanDecision) :
  _CashUpdater_update s (Some action) = Ok (set_bank_cash s (cash_after s action)).
Proof.
  unfold _CashUpdater_update, cash_after.
  destruct action; [destruct s; reflexivity|].
  destruct (truthy (will_default s)); reflexivity.
Qed.

(** The sampler overwrites the four applicant fields together, from one
    draw out of the state's own random source and distribution, and sets
    the group index to the argmax of the group vector. *)
Lemma ApplicantSampler_update_inv (s s' : State) (action : option LoanDecision) :
  _ApplicantSampler_update s action = Ok s' ->
  exists a gid,
    sample (applicant_distribution (params s)) (rng s) = Ok (a, rng s') /\
    np_argmax Z.ltb (applicant_group a) = Ok gid /\
    applicant_of s' =
      (Some (np_clip (features a) (min_observation (params s))
                     (max_observation (params s))),
       Some (applicant_group a), Some gid, Some (applicant_will_default a)) /\
    params s' = params s /\
    bank_cash s' = bank_cash s.
Proof.
  unfold _ApplicantSampler_update. intros H.
  bind_inv H. destruct a as [a rng'].
  bind_inv H. rename a0 into gid.
  inversion H; subst s'. exists a, gid. repeat split; assumption.
Qed.

Lemma ApplicantSampler_in_sync (s s' : State) (action : option LoanDecision) :
  _ApplicantSampler_update s action = Ok s' -> group_in_sync s'.
Proof.
  intros H. apply ApplicantSampler_update_inv in H.
  destruct H as (a & gid & _ & Hgid & Happ & _).
  unfold applicant_of in Happ. inversion Happ.
  exists (applicant_group a), gid. auto.
Qed.

(** The credit shift reads neither the cash nor anything the cash update
    writes. *)
Lemma CreditShift_ignores_cash (fresh : RandomState) (s : State) (c : num)
    (action : option LoanDecision) :
  _CreditShift_update fresh (set_bank_cash s c) action =
  (s' <- _CreditShift_update fresh s action ;; Ok (set_bank_cash s' c)).
Proof.
  unfold _CreditShift_update.
  destruct action as [[|]|]; try reflexivity;
    cbn [set_bank_cash params group group_id applicant_features will_default];
    repeat match goal with
      | |- bind ?x _ = bind (bind ?x _) _ =>
          destruct x; cbn [bind]; [|reflexivity]
      end; reflexivity.
Qed.

(** A returning credit shift is the same whatever random source it
    constructs for its checks. *)
Lemma CreditShift_result_unique (fresh1 fresh2 : RandomState) (s s1 s2 : State)
    (action : LoanDecision) :
  _CreditShift_update fresh1 s (Some action) = Ok s1 ->
  _CreditShift_update fresh2 s (Some action) = Ok s2 ->
  s1 = s2.
Proof.
  destruct action; [simpl; congruence|].
  intros H1 H2.
  apply CreditShift_accept_inv in H1, H2.
  destruct H1 as (gid & m & cid & w & probs' & comps' & Hg & _ & Hm & Hcid & _
                  & _ & Hshift & _ & _ & Hset & ->).
  destruct H2 as (gid2 & m2 & cid2 & w2 & probs2 & comps2 & Hg2 & _ & Hm2 & Hcid2
                  & _ & _ & Hshift2 & _ & _ & Hset2 & ->).
  rewrite Hg in Hg2. inversion Hg2; subst gid2.
  rewrite Hm in Hm2. inversion Hm2; subst m2.
  rewrite Hcid in Hcid2. inversion Hcid2; subst cid2.
  rewrite Hshift in Hshift2. inversion Hshift2; subst probs2.
  rewrite Hset in Hset2. inversion Hset2; subst comps2.
  reflexivity.
Qed.

Lemma parameter_updater_result_unique (env : LendingEnv)
    (fresh1 fresh2 : RandomState) (s s1 s2 : State) (action : LoanDecision) :
  lending_variant env ->
  _parameter_updater env fresh1 s (Some action) = Ok s1 ->
  _parameter_updater env fresh2 s (Some action) = Ok s2 ->
  s1 = s2.
Proof.
  intros [-> | ->]; cbn [_parameter_updater DelayedImpactEnv BaseLendingEnv].
  - unfold NoUpdate_update. congruence.
  - apply CreditShift_result_unique.
Qed.

(** The parameter updater of either class keeps the applicant, the cash and
    the random source, and commutes with a change of the cash. *)
Lemma parameter_updater_frame (env : LendingEnv) (fresh : RandomState)
    (s s' : State) (action : LoanDecision) :
  lending_variant env ->
  _parameter_updater env fresh s (Some action) = Ok s' ->
  applicant_of s' = applicant_of s /\ bank_cash s' = bank_cash s /\
  rng s' = rng s /\
  loan_amount (params s') = loan_amount (params s) /\
  interest_rate (params s') = interest_rate (params s) /\
  forall c, _parameter_updater env fresh (set_bank_cash s c) (Some action)
            = Ok (set_bank_cash s' c).
Proof.
  intros [-> | ->]; cbn [_parameter_updater DelayedImpactEnv BaseLendingEnv].
  - unfold NoUpdate_update. intros H; inversion H; subst. auto 10.
  - intros H.
    assert (Hc : forall c, _CreditShift_update fresh (set_bank_cash s c)
                             (Some action) = Ok (set_bank_cash s' c))
      by (intros c; rewrite CreditShift_ignores_cash, H; reflexivity).
    destruct action; [simpl in H; inversion H; subst; auto 10|].
    destruct (CreditShift_keeps_fields _ _ _ H) as (Hrng & Hcash & Happ & Hp).
    rewrite <- Hp. auto 10.
Qed.
End StepFacts.

(** ** One step *)

Section StepClaims.
Context {N : PyNum} {R : PyRandom N}.

Lemma set_bank_cash_back (s : State) (c : num) :
  set_bank_cash (set_bank_cash s c) (bank_cash s) = s.
Proof. destruct s; reflexivity. Qed.

(** The two updaters that follow the cash update in a returning step. *)
Lemma step_impl_inv (env : LendingEnv) (fresh : RandomState)
    (s s' : State) (action : LoanDecision) :
  lending_variant env ->
  _step_impl env fresh s action = Ok s' ->
  exists s2,
    _parameter_updater env fresh (set_bank_cash s (cash_after s action))
      (Some action) = Ok s2 /\
    _ApplicantSampler_update s2 (Some action) = Ok s'.
Proof.
  intros Henv H. unfold _step_impl in H.
  assert (Hc : _cash_updater env = _CashUpdater_update)
    by (destruct Henv; subst; reflexivity).
  assert (Ha : _applicant_updater env = _ApplicantSampler_update)
    by (destruct Henv; subst; reflexivity).
  rewrite Hc, Ha, CashUpdater_update_Ok in H. cbn [bind] in H.
  bind_inv H. eauto.
Qed.

(** C4. A step runs the cash updater, then the parameter updater, then the
    applicant updater.  The first two see the applicant that was current
    when the step began: the cash is the one computed from that applicant's
    outcome, and the parameters are the ones the parameter updater computes
    from the state the step began with.  Only then is the next applicant
    drawn, from the updated parameters and the state's random source, and
    written over the applicant fields. *)
Theorem step_impl_order (env : LendingEnv) (fresh : RandomState)
    (s s' : State) (action : LoanDecision) :
  lending_variant env ->
  _step_impl env fresh s action = Ok s' ->
  exists s1 s2,
    _cash_updater env s (Some action) = Ok s1 /\
    _parameter_updater env fresh s1 (Some action) = Ok s2 /\
    _applicant_updater env s2 (Some action) = Ok s' /\
    applicant_of s1 = applicant_of s /\
    applicant_of s2 = applicant_of s /\
    bank_cash s' = cash_after s action /\
    (exists s2', _parameter_updater env fresh s (Some action) = Ok s2' /\
                 params s' = params s2') /\
    exists a gid,
      sample (applicant_distribution (params s2)) (rng s) = Ok (a, rng s') /\
      np_argmax Z.ltb (applicant_group a) = Ok gid /\
      applicant_of s' =
        (Some (np_clip (features a) (min_observation (params s2))
                       (max_observation (params s2))),
         Some (applicant_group a), Some gid, Some (applicant_will_default a)).
Proof.
  intros Henv H. unfold _step_impl in H.
  bind_inv H. rename a into s1, E into Hcash.
  bind_inv H. rename a into s2, E into Hparam.
  exists s1, s2.
  assert (Hc : _cash_updater env = _CashUpdater_update)
    by (destruct Henv; subst; reflexivity).
  assert (Ha : _applicant_updater env = _ApplicantSampler_update)
    by (destruct Henv; subst; reflexivity).
  rewrite Hc in Hcash. rewrite CashUpdater_update_Ok in Hcash.
  inversion Hcash; subst s1. clear Hcash.
  destruct (parameter_updater_frame _ _ _ _ _ Henv Hparam)
    as (Happ & Hcash & Hrng & _ & _ & Hcomm).
  specialize (Hcomm (bank_cash s)). rewrite set_bank_cash_back in Hcomm.
  pose proof H as Hsample. rewrite Ha in Hsample.
  apply ApplicantSampler_update_inv in Hsample.
  destruct Hsample as (a & gid & Hdraw & Hgid & Happ' & Hpar & Hcash').
  rewrite Hc, CashUpdater_update_Ok.
  split; [reflexivity|]. split; [exact Hparam|]. split; [exact H|].
  split; [reflexivity|]. split; [exact Happ|].
  split; [rewrite Hcash', Hcash; reflexivity|].
  split.
  - eexists. split; [exact Hcomm|]. rewrite Hpar. reflexivity.
  - exists a, gid. rewrite Hrng in Hdraw. auto.
Qed.

(** ** Consistency of the group index *)

Lemma step_impl_in_sync (env : LendingEnv) (fresh : RandomState)
    (s s' : State) (action : LoanDecision) :
  lending_variant env ->
  _step_impl env fresh s action = Ok s' ->
  group_in_sync s'.
Proof.
  intros Henv H.
  destruct (step_impl_inv _ _ _ _ _ Henv H) as (s2 & _ & Hsample).
  apply (ApplicantSampler_in_sync _ _ _ Hsample).
Qed.

(** C8. In every state an environment reaches, the group vector and the
    group index are both set and the index is the argmax of the vector:
    the applicant sampler, which ends the reset and every step, is the
    only updater that writes either of them, and it writes both. *)
Theorem group_id_is_argmax_of_group (env : LendingEnv) (initial_params : Params)
    (s : State) :
  lending_variant env ->
  reachable env initial_params s ->
  group_in_sync s.
Proof.
  intros Henv Hreach.
  induction Hreach as [rng0 s Hinit | s fresh action s' _ _ _ Hstep].
  - unfold _state_init in Hinit.
    assert (Ha : _applicant_updater env = _ApplicantSampler_update)
      by (destruct Henv; subst; reflexivity).
    rewrite Ha in Hinit. apply (ApplicantSampler_in_sync _ _ _ Hinit).
  - apply (step_impl_in_sync _ _ _ _ _ Henv Hstep).
Qed.

(** A state whose group index is not the argmax of its group vector is
    refused by the credit shift. *)
Lemma CreditShift_rejects_out_of_sync (fresh : RandomState) (s : State)
    (i : nat) :
  np_argmax_opt Z.ltb (group s) = Ok i ->
  group_id s <> Some i ->
  _CreditShift_update fresh s (Some ACCEPT)
    = Raise (AssertionError GroupIdOutOfSync).
Proof.
  intros Hi Hne. unfold _CreditShift_update. rewrite Hi. cbn [bind].
  destruct (group_id_eqb (group_id s) i) eqn:E.
  - apply group_id_eqb_true in E. contradiction.
  - reflexivity.
Qed.

(** ** Determinism *)

Lemma step_result_unique (env : LendingEnv) (fresh1 fresh2 : RandomState)
    (s s1 s2 : State) (action : LoanDecision) :
  lending_variant env ->
  step env fresh1 s action = Ok s1 ->
  step env fresh2 s action = Ok s2 ->
  s1 = s2.
Proof.
  intros Henv H1 H2. unfold step in H1, H2.
  destruct (_is_done s); [discriminate|].
  unfold _step_impl in H1, H2.
  bind_inv H1. bind_inv H2. rewrite E in E0. inversion E0; subst a0.
  bind_inv H1. bind_inv H2.
  rewrite (parameter_updater_result_unique _ _ _ _ _ _ _ Henv E1 E2) in H1.
  congruence.
Qed.

Lemma steps_result_unique (env : LendingEnv) (acts1 : list (LoanDecision * RandomState)) :
  lending_variant env ->
  forall acts2 s l1 l2,
    map fst acts1 = map fst acts2 ->
    steps env s acts1 = Ok l1 ->
    steps env s acts2 = Ok l2 ->
    l1 = l2.
Proof.
  intros Henv.
  induction acts1 as [|[a1 f1] acts1 IH]; intros [|[a2 f2] acts2] s l1 l2 Hmap H1 H2;
    simpl in Hmap; try discriminate.
  - simpl in H1, H2. congruence.
  - injection Hmap as Ha Hrest. subst a2. simpl in H1, H2.
    bind_inv H1. bind_inv H2.
    pose proof (step_result_unique _ _ _ _ _ _ _ Henv E E0) as Heq. subst a0.
    bind_inv H1. bind_inv H2.
    rewrite (IH _ _ _ _ Hrest E1 E2) in H1. congruence.
Qed.

(** Two episodes over the same actions that both return show the same
    trajectory. *)
Lemma episode_result_unique (env : LendingEnv) (initial_params : Params)
    (rng0 : RandomState) (acts1 acts2 : list (LoanDecision * RandomState))
    (t1 t2 : list (num * option (list num) * option (list Z) * option bool)) :
  lending_variant env ->
  map fst acts1 = map fst acts2 ->
  episode env initial_params rng0 acts1 = Ok t1 ->
  episode env initial_params rng0 acts2 = Ok t2 ->
  t1 = t2.
Proof.
  intros Henv Hmap H1 H2. unfold episode in H1, H2.
  bind_inv H1. bind_inv H2. rewrite E in E0. inversion E0; subst a0.
  bind_inv H1. bind_inv H2.
  rewrite (steps_result_unique _ _ Henv _ _ _ _ Hmap E1 E2) in H1.
  congruence.
Qed.

(** Without a credit shift nothing in a step looks at the constructed
    random source at all. *)
Lemma BaseLendingEnv_step_ignores_fresh (fresh1 fresh2 : RandomState)
    (s : State) (action : LoanDecision) :
  step BaseLendingEnv fresh1 s action = step BaseLendingEnv fresh2 s action.
Proof. reflexivity. Qed.

Lemma BaseLendingEnv_steps_ignore_fresh
    (acts1 : list (LoanDecision * RandomState)) :
  forall acts2 s,
    map fst acts1 = map fst acts2 ->
    steps BaseLendingEnv s acts1 = steps BaseLendingEnv s acts2.
Proof.
  induction acts1 as [|[a1 f1] acts1 IH]; intros [|[a2 f2] acts2] s Hmap;
    simpl in Hmap; try discriminate; [reflexivity|].
  injection Hmap as Ha Hrest. subst a2. cbn [steps].
  rewrite (BaseLendingEnv_step_ignores_fresh f1 f2 s a1).
  destruct (step BaseLendingEnv f2 s a1) as [s'|e]; cbn [bind]; [|reflexivity].
  rewrite (IH acts2 s' Hrest). reflexivity.
Qed.
End StepClaims.

Lemma step_impl_order_witness :
  bank_cash scenario_stepped_Q = cash_after (scenario_state_Q 1 true) ACCEPT.
Proof.
  destruct (@step_impl_order QNum (CounterRandom QNum) DelayedImpactEnv 7%nat
              (scenario_state_Q 1 true) scenario_stepped_Q ACCEPT)
    as (s1 & s2 & _ & _ & _ & _ & _ & Hcash & _).
  - right. reflexivity.
  - vm_compute. reflexivity.
  - exact Hcash.
Defined.

Lemma group_id_is_argmax_of_group_witness : group_in_sync scenario_initial_Q.
Proof.
  apply (@group_id_is_argmax_of_group QNum (CounterRandom QNum)
           DelayedImpactEnv scenario_params_Q scenario_initial_Q).
  - right. reflexivity.
  - apply reachable_init with (rng0 := 0%nat). vm_compute. reflexivity.
Defined.

(** ** Termination and the bounds of the cash *)

Section ExactCash.
#[local] Existing Instance QNum.
Context {R : PyRandom QNum}.

Lemma is_done_Q_iff (s : State) :
  _is_done s = true <-> (bank_cash s < loan_amount (params s))%Q.
Proof. unfold _is_done. apply Qltb_lt. Qed.

Lemma is_done_Q_false_iff (s : State) :
  _is_done s = false <-> (loan_amount (params s) <= bank_cash s)%Q.
Proof. unfold _is_done. apply Qltb_ge. Qed.

Lemma cash_after_non_negative (s : State) (action : LoanDecision) :
  (0 <= loan_amount (params s))%Q ->
  (0 <= interest_rate (params s))%Q ->
  (loan_amount (params s) <= bank_cash s)%Q ->
  (0 <= cash_after s action)%Q.
Proof.
  intros Hloan Hint Hcash. unfold cash_after.
  assert (H0 : (0 <= bank_cash s)%Q) by exact (Qle_trans _ _ _ Hloan Hcash).
  destruct action; [exact H0|].
  destruct (truthy (will_default s)); simpl.
  - apply (Qplus_le_l _ _ (loan_amount (params s))). ring_simplify. exact Hcash.
  - rewrite <- (Qplus_0_l 0). apply Qplus_le_compat; [exact H0|].
    apply Qmult_le_0_compat; assumption.
Qed.

Lemma step_cash_invariant (env : LendingEnv) (initial_params : Params)
    (fresh : RandomState) (s s' : State) (action : LoanDecision) :
  lending_variant env ->
  (0 <= loan_amount initial_params)%Q ->
  (0 <= interest_rate initial_params)%Q ->
  cash_invariant initial_params s ->
  _is_done s = false ->
  _step_impl env fresh s action = Ok s' ->
  cash_invariant initial_params s'.
Proof.
  intros Henv Hloan Hint (Hl & Hi & Hc) Hdone Hstep.
  apply is_done_Q_false_iff in Hdone.
  destruct (step_impl_inv _ _ _ _ _ Henv Hstep) as (s2 & Hp & Hsample).
  destruct (parameter_updater_frame _ _ _ _ _ Henv Hp)
    as (_ & Hcash & _ & Hl' & Hi' & _).
  apply ApplicantSampler_update_inv in Hsample.
  destruct Hsample as (a & gid & _ & _ & _ & Hpar & Hcash').
  cbn [set_bank_cash bank_cash params] in Hcash, Hl', Hi'.
  unfold cash_invariant. rewrite Hpar, Hl', Hi', Hcash', Hcash.
  split; [exact Hl|]. split; [exact Hi|].
  apply cash_after_non_negative;
    [rewrite Hl; exact Hloan | rewrite Hi; exact Hint | exact Hdone].
Qed.
End ExactCash.

(** C5. The environment is done exactly when the bank cash is strictly
    below the loan amount: [_is_done] is that comparison in any arithmetic;
    in exact arithmetic it holds iff cash < loan amount, so a state with
    cash equal to the loan amount is not done; and a step that returns a
    state with cash below the loan amount leaves the environment done.  In
    binary64, with loan amount 1000, cash 1000 is not done and the float
    just below 1000 is. *)
Theorem is_done_boundary :
  (forall (N : PyNum) (R : PyRandom N) (s : @State N R),
      _is_done s = ltb (bank_cash s) (loan_amount (params s))) /\
  (forall (R : PyRandom QNum) (s : @State QNum R),
      (_is_done s = true <-> (bank_cash s < loan_amount (params s))%Q) /\
      ((bank_cash s == loan_amount (params s))%Q -> _is_done s = false)) /\
  (forall (R : PyRandom QNum) (env : LendingEnv) (fresh : RandomState)
          (s s' : @State QNum R) (action : LoanDecision),
      _step_impl env fresh s action = Ok s' ->
      (bank_cash s' < loan_amount (params s'))%Q ->
      _is_done s' = true) /\
  (_is_done (set_bank_cash (scenario_state_F 0 true) 1000%float) = false /\
   _is_done (set_bank_cash (scenario_state_F 0 true)
               0x1.f3fffffffffffp+9%float) = true).
Proof.
  split; [|split; [|split]].
  - intros N R s. reflexivity.
  - intros R s. split; [apply is_done_Q_iff|].
    intros Heq. apply is_done_Q_false_iff. rewrite Heq. apply Qle_refl.
  - intros R env fresh s s' action Hstep Hlow.
    apply is_done_Q_iff. exact Hlow.
  - split; reflexivity.
Qed.

Lemma is_done_boundary_witness :
  _is_done scenario_last_loan_Q = false /\ _is_done scenario_broke_Q = true.
Proof.
  split.
  - apply (proj2 (proj1 (proj2 is_done_boundary) (CounterRandom QNum)
                    scenario_last_loan_Q)).
    vm_compute. reflexivity.
  - apply (proj1 (proj2 (proj2 is_done_boundary)) (CounterRandom QNum)
             DelayedImpactEnv 7%nat scenario_last_loan_Q scenario_broke_Q
             ACCEPT).
    + vm_compute. reflexivity.
    + vm_compute. reflexivity.
Defined.

Lemma tight_stepped_reachable :
  reachable (R := CounterRandom QNum) BaseLendingEnv tight_params_Q
    tight_stepped_Q.
Proof.
  apply reachable_step with (s := tight_initial_Q) (fresh := 0%nat)
                            (action := ACCEPT).
  - apply reachable_init with (rng0 := 1%nat). vm_compute. reflexivity.
  - reflexivity.
  - vm_compute. reflexivity.
Qed.

(** C7, as stated, fails: nothing keeps the cash below [max_cash].  With
    starting cash and [max_cash] both 10000, one accepted applicant who
    repays takes the cash of a reachable state to 10100. *)
Lemma bank_cash_above_max_cash :
  reachable (R := CounterRandom QNum) BaseLendingEnv tight_params_Q
    tight_stepped_Q /\
  (max_cash (params tight_stepped_Q) < bank_cash tight_stepped_Q)%Q.
Proof.
  split; [exact tight_stepped_reachable|].
  vm_compute. reflexivity.
Qed.

(** C7, amended. In exact arithmetic, with a non-negative starting cash,
    loan amount and interest rate, the bank cash of every reachable state is
    non-negative: a step is taken only while the environment is not done,
    that is while the cash covers a loan; a default takes one loan off it,
    and a repayment adds to it. *)
Theorem bank_cash_non_negative (R : PyRandom QNum) (env : @LendingEnv QNum R)
    (initial_params : @Params QNum R) (s : @State QNum R) :
  lending_variant env ->
  (0 <= bank_starting_cash initial_params)%Q ->
  (0 <= loan_amount initial_params)%Q ->
  (0 <= interest_rate initial_params)%Q ->
  reachable env initial_params s ->
  (0 <= bank_cash s)%Q.
Proof.
  intros Henv Hstart Hloan Hint Hreach.
  enough (Hinv : cash_invariant initial_params s) by apply Hinv.
  induction Hreach as [rng0 s Hinit | s fresh action s' _ IH Hdone Hstep].
  - unfold _state_init in Hinit.
    assert (Ha : _applicant_updater env = _ApplicantSampler_update)
      by (destruct Henv; subst; reflexivity).
    rewrite Ha in Hinit. apply ApplicantSampler_update_inv in Hinit.
    destruct Hinit as (a & gid & _ & _ & _ & Hpar & Hcash).
    unfold cash_invariant. rewrite Hpar, Hcash. simpl. auto.
  - apply (step_cash_invariant env initial_params fresh s s' action);
      assumption.
Qed.

Lemma bank_cash_non_negative_witness : (0 <= bank_cash tight_stepped_Q)%Q.
Proof.
  apply (bank_cash_non_negative (CounterRandom QNum) BaseLendingEnv
           tight_params_Q tight_stepped_Q).
  - left. reflexivity.
  - vm_compute. discriminate.
  - vm_compute. discriminate.
  - vm_compute. discriminate.
  - exact tight_stepped_reachable.
Defined.

(** ** The guard of [step] *)

Section StepGuard.
Context {N : PyNum} {R : PyRandom N}.

(** A step that returns was taken in a state that is not done, and is the
    three updaters of [_step_impl]. *)
Lemma step_Ok_iff (env : LendingEnv) (fresh : RandomState) (s s' : State)
    (action : LoanDecision) :
  step env fresh s action = Ok s' <->
  _is_done s = false /\ _step_impl env fresh s action = Ok s'.
Proof.
  unfold step. destruct (_is_done s); split.
  - discriminate.
  - intros [H _]. discriminate.
  - auto.
  - intros [_ H]. exact H.
Qed.

Lemma step_after_done (env : LendingEnv) (fresh : RandomState) (s : State)
    (action : LoanDecision) :
  _is_done s = true -> step env fresh s action = Raise PostTerminationStep.
Proof. intros H. unfold step. rewrite H. reflexivity. Qed.

(** The states along a returning sequence of steps are reachable. *)
Lemma steps_reachable (env : LendingEnv) (initial_params : Params)
    (actions : list (LoanDecision * RandomState)) :
  forall s l,
    reachable env initial_params s ->
    steps env s actions = Ok l ->
    Forall (reachable env initial_params) l.
Proof.
  induction actions as [|[a f] actions IH]; intros s l Hs H; simpl in H.
  - inversion H. constructor.
  - bind_inv H. rename a0 into s1, E into Hstep.
    bind_inv H. inversion H; subst l.
    apply step_Ok_iff in Hstep. destruct Hstep as [Hdone Hstep].
    assert (Hs1 : reachable env initial_params s1)
      by (eapply reachable_step; eassumption).
    constructor; [exact Hs1 | eapply IH; eassumption].
Qed.
End StepGuard.

(** ** Mass conservation along an episode *)

Section EpisodeWeights.
Context {N : PyNum} {R : PyRandom N}.

(** Every group of the state has valid cluster weights. *)
Definition all_weights_valid (s : State) : Prop :=
  forall g w, cluster_weights s g = Some w -> valid_weights w.

Lemma parameter_updater_keeps_weights_valid (env : LendingEnv)
    (fresh : RandomState) (s s' : State) (action : LoanDecision) :
  lending_variant env ->
  _parameter_updater env fresh s (Some action) = Ok s' ->
  all_weights_valid s -> all_weights_valid s'.
Proof.
  intros [-> | ->]; cbn [_parameter_updater DelayedImpactEnv BaseLendingEnv].
  - unfold NoUpdate_update. intros H; inversion H; subst. auto.
  - destruct action; [simpl; intros H; inversion H; subst; auto|].
    intros H Hvalid g w Hw.
    destruct (CreditShift_accept_weights _ _ _ H)
      as (gid & cid & old & new & _ & _ & _ & _ & Hnew & Hframe).
    rewrite Hframe in Hw. destruct (Nat.eqb g gid).
    + inversion Hw; subst. exact Hnew.
    + apply (Hvalid g w Hw).
Qed.

(** X12. For all sequences of decisions: if the initial parameters carry
    valid weights, so does every state the environment reaches. *)
Lemma reachable_weights_valid (env : LendingEnv) (initial_params : Params)
    (s : State) :
  lending_variant env ->
  (forall g m, nth_error (components (applicant_distribution initial_params)) g
               = Some m -> valid_weights (weights m)) ->
  reachable env initial_params s ->
  all_weights_valid s.
Proof.
  intros Henv Hinit Hreach.
  induction Hreach as [rng0 s H0 | s fresh action s' _ IH _ Hstep].
  - unfold _state_init in H0.
    assert (Ha : _applicant_updater env = _ApplicantSampler_update)
      by (destruct Henv; subst; reflexivity).
    rewrite Ha in H0. apply ApplicantSampler_update_inv in H0.
    destruct H0 as (a & gid & _ & _ & _ & Hpar & _).
    intros g w Hw. unfold cluster_weights in Hw. rewrite Hpar in Hw.
    cbn [params] in Hw.
    destruct (nth_error (components (applicant_distribution initial_params)) g)
      as [m|] eqn:Hm; [|discriminate].
    inversion Hw; subst. apply (Hinit g m Hm).
  - destruct (step_impl_inv _ _ _ _ _ Henv Hstep) as (s2 & Hp & Hsample).
    assert (Hcash : all_weights_valid (set_bank_cash s (cash_after s action)))
      by exact IH.
    pose proof (parameter_updater_keeps_weights_valid _ _ _ _ _ Henv Hp Hcash)
      as Hvalid.
    apply ApplicantSampler_update_inv in Hsample.
    destruct Hsample as (a & gid & _ & _ & _ & Hpar & _).
    intros g w Hw. apply (Hvalid g w).
    unfold cluster_weights in *. rewrite <- Hpar. exact Hw.
Qed.
End EpisodeWeights.

(** ** Determinism of the checks for constant populations *)

Section ConstantPopulation.
Context {N : PyNum} {R : PyRandom N}.
Hypothesis Hchoice : choice_is_regular.

Lemma Forall2_nth_error_left {A B : Type} (P : A -> B -> Prop)
    (l1 : list A) (l2 : list B) :
  Forall2 P l1 l2 ->
  forall j x, nth_error l1 j = Some x ->
              exists y, nth_error l2 j = Some y /\ P x y.
Proof.
  induction 1 as [|x0 y0 l1 l2 Hxy _ IH]; intros j x Hj.
  - destruct j; discriminate.
  - destruct j as [|j]; simpl in Hj.
    + inversion Hj; subst. exists y0. auto.
    + apply (IH j x Hj).
Qed.

(** Two draws from a constant mixture fail alike or both give its group. *)
Lemma Mixture_sample_constant (m : Mixture) (g : list Z) (fs : list (list num))
    (rng rng' : RandomState) :
  length (cluster_components m) = length (weights m) ->
  Forall2 (fun (c : Component) f =>
             forall r, applicant_group (fst (c r)) = g /\ features (fst (c r)) = f)
          (cluster_components m) fs ->
  (exists e, Mixture_sample m rng = Raise e /\ Mixture_sample m rng' = Raise e) \/
  (exists a r a' r',
      Mixture_sample m rng = Ok (a, r) /\ Mixture_sample m rng' = Ok (a', r') /\
      applicant_group a = g /\ applicant_group a' = g).
Proof.
  intros Hlen Hconst. destruct Hchoice as [Hnone Hrange].
  unfold Mixture_sample, rng_choice.
  destruct (choice rng (weights m)) as [[j r1]|] eqn:E1;
    destruct (choice rng' (weights m)) as [[j' r1']|] eqn:E2.
  - right.
    apply Hrange in E1, E2. rewrite <- Hlen in E1, E2.
    destruct (getitem_in_range _ _ E1) as [c Hc].
    destruct (getitem_in_range _ _ E2) as [c' Hc'].
    cbn [bind]. rewrite Hc, Hc'. cbn [bind].
    apply getitem_Ok in Hc, Hc'.
    destruct (Forall2_nth_error_left _ _ _ Hconst _ _ Hc) as (f & _ & Hf).
    destruct (Forall2_nth_error_left _ _ _ Hconst _ _ Hc') as (f' & _ & Hf').
    destruct (c r1) as [a r] eqn:Ea. destruct (c' r1') as [a' r'] eqn:Ea'.
    exists a, r, a', r'.
    specialize (Hf r1). specialize (Hf' r1'). rewrite Ea in Hf. rewrite Ea' in Hf'.
    simpl in Hf, Hf'. tauto.
  - apply (Hnone _ rng) in E2. congruence.
  - apply (Hnone _ rng') in E1. congruence.
  - left. exists ValueError. auto.
Qed.

Lemma check_sampled_group_constant (n : nat) (m : Mixture) (sg : option (list Z)) :
  constant_mixture m ->
  forall rng rng',
    outcome (check_sampled_group n m sg rng)
    = outcome (check_sampled_group n m sg rng').
Proof.
  intros (Hlen & g & fs & Hconst).
  induction n as [|n IH]; intros rng rng'; [reflexivity|].
  cbn [check_sampled_group].
  destruct (Mixture_sample_constant m g fs rng rng' Hlen Hconst)
    as [(e & -> & ->) | (a & r & a' & r' & -> & -> & Ha & Ha')];
    [reflexivity|].
  cbn [bind]. rewrite Ha, Ha'.
  destruct (array_equal g sg); cbn [assert bind]; [apply IH | reflexivity].
Qed.

Lemma check_argmax_constant (cs : list Component) (g : list Z)
    (fs : list (list num)) :
  Forall2 (fun (c : Component) f =>
             forall r, applicant_group (fst (c r)) = g /\ features (fst (c r)) = f)
          cs fs ->
  forall idx rng rng',
    outcome (check_argmax idx cs rng) = outcome (check_argmax idx cs rng').
Proof.
  induction 1 as [|c f cs fs Hc _ IH]; intros idx rng rng'; [reflexivity|].
  cbn [check_argmax].
  pose proof (Hc rng) as [_ Hf]. pose proof (Hc rng') as [_ Hf'].
  destruct (c rng) as [a r]. destruct (c rng') as [a' r'].
  simpl in Hf, Hf'. rewrite Hf, Hf'.
  destruct (np_argmax ltb f) as [i|e]; cbn [bind]; [|reflexivity].
  destruct (Nat.eqb i idx); cbn [assert bind]; [apply IH | reflexivity].
Qed.

Lemma outcome_Ok {A : Type} (r r' : result A) (a : A) :
  outcome r = outcome r' -> r = Ok a -> exists a', r' = Ok a'.
Proof.
  intros H ->. destruct r' as [a'|e]; [eauto | discriminate].
Qed.

Lemma outcome_Raise {A : Type} (r r' : result A) (e : error) :
  outcome r = outcome r' -> r = Raise e -> r' = Raise e.
Proof.
  intros H ->. destruct r' as [a'|e']; simpl in H; congruence.
Qed.

(** On a constant population the credit shift is the same function of the
    state whatever random source it constructs: it returns the same state
    or raises the same error. *)
Lemma CreditShift_ignores_fresh (fresh1 fresh2 : RandomState) (s : State)
    (action : option LoanDecision) :
  constant_population s ->
  _CreditShift_update fresh1 s action = _CreditShift_update fresh2 s action.
Proof.
  intros Hpop. unfold _CreditShift_update.
  destruct action as [[|]|]; try reflexivity;
    (destruct (np_argmax_opt Z.ltb (group s)) as [i|e]; cbn [bind];
       [|reflexivity];
     destruct (assert (group_id_eqb (group_id s) i) GroupIdOutOfSync);
       cbn [bind]; [|reflexivity];
     destruct (getitem (components (applicant_distribution (params s))) i)
       as [m|e] eqn:Hm; cbn [bind]; [|reflexivity];
     apply getitem_Ok in Hm;
     pose proof (Hpop i m Hm) as Hconst;
     pose proof (check_sampled_group_constant 10 m (group s) Hconst fresh1 fresh2)
       as H1;
     destruct Hconst as (_ & g & fs & Hfs);
     destruct (check_sampled_group 10 m (group s) fresh1) as [r1|e1] eqn:E1;
       [destruct (outcome_Ok _ _ _ H1 eq_refl) as [r2 ->]
       |rewrite (outcome_Raise _ _ _ H1 eq_refl); reflexivity];
     cbn [bind];
     pose proof (check_argmax_constant _ g fs Hfs 0%nat r1 r2) as H2;
     destruct (check_argmax 0 (cluster_components m) r1) as [r1'|e1'] eqn:E2;
       [destruct (outcome_Ok _ _ _ H2 eq_refl) as [r2' ->]
       |rewrite (outcome_Raise _ _ _ H2 eq_refl); reflexivity];
     reflexivity).
Qed.

Lemma parameter_updater_keeps_population_constant (env : LendingEnv)
    (fresh : RandomState) (s s' : State) (action : LoanDecision) :
  lending_variant env ->
  _parameter_updater env fresh s (Some action) = Ok s' ->
  constant_population s -> constant_population s'.
Proof.
  intros [-> | ->]; cbn [_parameter_updater DelayedImpactEnv BaseLendingEnv].
  - unfold NoUpdate_update. intros H; inversion H; subst. auto.
  - destruct action; [simpl; intros H; inversion H; subst; auto|].
    intros H Hpop. apply CreditShift_accept_inv in H.
    destruct H as (gid & m & cid & w & probs' & comps' & _ & _ & Hm & _ & _
                   & _ & Hshift & _ & _ & Hset & ->).
    intros g m' Hm'.
    cbn [set_params set_applicant_distribution set_components params
         applicant_distribution components] in Hm'.
    rewrite (setitem_nth_error _ _ _ _ Hset g) in Hm'.
    destruct (Nat.eqb g gid); [|apply (Hpop g m' Hm')].
    inversion Hm'; subst m'.
    destruct (Hpop gid m Hm) as (Hlen & Hrest).
    split; [|exact Hrest].
    cbn [set_weights cluster_components weights].
    rewrite (shift_mass_length _ _ _ _ _ Hshift). exact Hlen.
Qed.

Lemma step_impl_ignores_fresh (env : LendingEnv) (fresh1 fresh2 : RandomState)
    (s : State) (action : LoanDecision) :
  lending_variant env ->
  constant_population s ->
  _step_impl env fresh1 s action = _step_impl env fresh2 s action.
Proof.
  intros Henv Hpop. unfold _step_impl.
  assert (Hc : _cash_updater env = _CashUpdater_update)
    by (destruct Henv; subst; reflexivity).
  rewrite Hc, CashUpdater_update_Ok. cbn [bind].
  destruct Henv as [-> | ->]; [reflexivity|].
  cbn [_parameter_updater DelayedImpactEnv].
  rewrite (CreditShift_ignores_fresh fresh1 fresh2); [reflexivity|].
  exact Hpop.
Qed.

Lemma step_impl_keeps_population_constant (env : LendingEnv)
    (fresh : RandomState) (s s' : State) (action : LoanDecision) :
  lending_variant env ->
  _step_impl env fresh s action = Ok s' ->
  constant_population s -> constant_population s'.
Proof.
  intros Henv H Hpop.
  destruct (step_impl_inv _ _ _ _ _ Henv H) as (s2 & Hp & Hsample).
  assert (Hpop2 : constant_population s2)
    by (apply (parameter_updater_keeps_population_constant _ _ _ _ _ Henv Hp);
        exact Hpop).
  apply ApplicantSampler_update_inv in Hsample.
  destruct Hsample as (a & gid & _ & _ & _ & Hpar & _).
  unfold constant_population. rewrite Hpar. exact Hpop2.
Qed.

Lemma steps_ignore_fresh (env : LendingEnv)
    (acts1 : list (LoanDecision * RandomState)) :
  lending_variant env ->
  forall acts2 s,
    map fst acts1 = map fst acts2 ->
    constant_population s ->
    steps env s acts1 = steps env s acts2.
Proof.
  intros Henv.
  induction acts1 as [|[a1 f1] acts1 IH]; intros [|[a2 f2] acts2] s Hmap Hpop;
    simpl in Hmap; try discriminate; [reflexivity|].
  injection Hmap as Ha Hrest. subst a2. cbn [steps]. unfold step.
  destruct (_is_done s); [reflexivity|].
  rewrite (step_impl_ignores_fresh env f1 f2 s a1 Henv Hpop).
  destruct (_step_impl env f2 s a1) as [s'|e] eqn:Hstep; cbn [bind];
    [|reflexivity].
  rewrite (IH acts2 s' Hrest); [reflexivity|].
  apply (step_impl_keeps_population_constant _ _ _ _ _ Henv Hstep Hpop).
Qed.

End ConstantPopulation.

(** The counter and the example populations meet these conditions. *)
Lemma counter_choice_is_regular (N : PyNum) :
  choice_is_regular (R := CounterRandom N).
Proof.
  split.
  - intros rng rng' p. simpl. unfold counter_choice.
    destruct p; [reflexivity | discriminate].
  - intros rng p j rng'. cbn [choice CounterRandom]. unfold counter_choice.
    destruct p as [|x p]; [discriminate|].
    assert (Hb : (rng mod length (x :: p) < length (x :: p))%nat)
      by (apply Nat.mod_upper_bound; discriminate).
    intros H. injection H as Hj _. subst j. exact Hb.
Qed.

Lemma credit_group_is_constant (N : PyNum) (g : list Z) (w : list num) :
  constant_mixture (credit_group g w).
Proof.
  split.
  - simpl. rewrite length_map, length_seq. reflexivity.
  - exists g, (map (one_hot one zero (length w)) (seq 0 (length w))).
    simpl. induction (seq 0 (length w)) as [|c l IH]; simpl; constructor.
    + intros rng. split; reflexivity.
    + exact IH.
Qed.

Lemma example_params_are_constant (N : PyNum) (gw w0 w1 : list num)
    (loan interest inc lo hi start maxc : num) :
  constant_params (example_params gw w0 w1 loan interest inc lo hi start maxc).
Proof.
  intros g m Hm. simpl in Hm.
  destruct g as [|[|g]]; simpl in Hm.
  - inversion Hm. apply credit_group_is_constant.
  - inversion Hm. apply credit_group_is_constant.
  - destruct g; discriminate.
Qed.

(** ** Determinism of an episode *)




(** * Further properties of the updaters *)

(** ** The credit shift *)

(** X1. In exact arithmetic a returning accepted update leaves the sum of
    the weights of the applicant's group exactly as it was: the mass taken
    from the current cluster is the mass given to the target, so no drift
    builds up within the tolerance of the closing assertion. *)
Theorem CreditShift_conserves_total_mass_Q (R : PyRandom QNum)
    (fresh : RandomState) (s s' : @State QNum R) (gid : nat) (old : list Q) :
  _CreditShift_update fresh s (Some ACCEPT) = Ok s' ->
  group_id s = Some gid ->
  cluster_weights s gid = Some old ->
  exists new, cluster_weights s' gid = Some new /\ (sumQ new == sumQ old)%Q.
Proof.
  intros Hupd Hgid Hold.
  destruct (CreditShift_accept_weights _ _ _ Hupd)
    as (gid' & cid & old' & new & Hgid' & _ & Hold' & Hshift & _ & Hframe).
  rewrite Hgid in Hgid'. injection Hgid' as <-.
  change (@num QNum) with Q in *.
  rewrite Hold in Hold'. injection Hold' as <-.
  exists new. rewrite Hframe, Nat.eqb_refl. split; [reflexivity|].
  apply (shift_mass_Q_conserves _ _ _ _ _ Hshift).
Qed.

Lemma CreditShift_conserves_total_mass_Q_witness :
  exists new, cluster_weights scenario_shifted_Q 0 = Some new
              /\ (sumQ new == sumQ [1 # 2; 3 # 10; 1 # 5])%Q.
Proof.
  apply (CreditShift_conserves_total_mass_Q (CounterRandom QNum) 7%nat
           (scenario_state_Q 1 true) scenario_shifted_Q 0%nat
           [1 # 2; 3 # 10; 1 # 5]%Q).
  - vm_compute. reflexivity.
  - reflexivity.
  - reflexivity.
Defined.

Section CreditShiftShape.
Context {N : PyNum} {R : PyRandom N}.

(** X2. In any arithmetic a returning accepted update writes at most two
    weights of the applicant's group, the current cluster and a target that
    is the same cluster or one of its two neighbours inside the array; every
    other weight of the group is the very value it was, and the number of
    clusters is kept. *)
Theorem CreditShift_touches_only_neighbours (fresh : RandomState)
    (s s' : State) (gid cid : nat) (old : list num) :
  _CreditShift_update fresh s (Some ACCEPT) = Ok s' ->
  group_id s = Some gid ->
  np_argmax_opt ltb (applicant_features s) = Ok cid ->
  cluster_weights s gid = Some old ->
  exists new target,
    cluster_weights s' gid = Some new /\
    length new = length old /\
    (target < length old)%nat /\
    (target = cid \/ S target = cid \/ target = S cid) /\
    forall j, j <> cid -> j <> target -> nth_error new j = nth_error old j.
Proof.
  intros Hupd Hgid Hcid Hold.
  destruct (CreditShift_accept_weights _ _ _ Hupd)
    as (gid' & cid' & old' & new & Hgid' & Hcid' & Hold' & Hshift & _ & Hframe).
  rewrite Hgid in Hgid'. injection Hgid' as <-.
  rewrite Hcid in Hcid'. injection Hcid' as <-.
  rewrite Hold in Hold'. injection Hold' as <-.
  assert (Hw : exists w, nth_error old cid = Some w).
  { unfold shift_mass in Hshift. bind_inv Hshift.
    apply getitem_Ok in E. eauto. }
  destruct Hw as [w Hw].
  assert (Hlen : (cid < length old)%nat)
    by (apply nth_error_Some; rewrite Hw; discriminate).
  exists new, (target_cluster cid (truthy (will_default s)) (length old)).
  rewrite Hframe, Nat.eqb_refl.
  split; [reflexivity|]. split; [apply (shift_mass_length _ _ _ _ _ Hshift)|].
  split; [apply target_cluster_in_range; lia|].
  split.
  - rewrite (target_cluster_saturates _ _ _ Hlen).
    destruct (truthy (will_default s)); lia.
  - intros j Hjc Hjt.
    rewrite (shift_mass_pointwise _ _ _ _ _ _ Hshift Hw j). cbv zeta.
    apply Nat.eqb_neq in Hjc, Hjt. rewrite Hjc, Hjt. reflexivity.
Qed.
End CreditShiftShape.

Lemma CreditShift_touches_only_neighbours_witness :
  exists new target,
    cluster_weights scenario_shifted_Q 0 = Some new /\
    length new = 3%nat /\
    (target < 3)%nat /\
    (target = 1 \/ S target = 1 \/ target = 2)%nat /\
    forall j, j <> 1%nat -> j <> target ->
              nth_error new j = nth_error [1 # 2; 3 # 10; 1 # 5]%Q j.
Proof.
  apply (@CreditShift_touches_only_neighbours QNum (CounterRandom QNum) 7%nat
           (scenario_state_Q 1 true) scenario_shifted_Q 0%nat 1%nat
           [1 # 2; 3 # 10; 1 # 5]%Q).
  - vm_compute. reflexivity.
  - reflexivity.
  - reflexivity.
  - reflexivity.
Defined.

(** X3. In exact arithmetic, when the current cluster holds no more than
    the shift increment and the applicant is not at the saturated end of the
    cluster array, a returning accepted update moves the whole weight away:
    the current cluster is left with weight zero, and a further accepted
    update for the same applicant cannot return, whatever random source its
    checks construct. *)
Theorem CreditShift_drained_cluster_is_refused (R : PyRandom QNum)
    (fresh fresh' : RandomState) (s s' : @State QNum R) (gid cid : nat)
    (old : list Q) (w : Q) :
  _CreditShift_update fresh s (Some ACCEPT) = Ok s' ->
  group_id s = Some gid ->
  np_argmax_opt Qltb (applicant_features s) = Ok cid ->
  cluster_weights s gid = Some old ->
  nth_error old cid = Some w ->
  (w <= cluster_shift_increment (params s))%Q ->
  (if truthy (will_default s) then 0 < cid else S cid < length old)%nat ->
  (exists new z, cluster_weights s' gid = Some new /\
                 nth_error new cid = Some z /\ (z == 0)%Q) /\
  forall s'', _CreditShift_update fresh' s' (Some ACCEPT) <> Ok s''.
Proof.
  intros Hupd Hgid Hcid Hold Hw Hle Hend.
  destruct (CreditShift_keeps_fields _ _ _ Hupd) as (_ & _ & Happ & _).
  unfold applicant_of in Happ. injection Happ as Hf Hg Hi Hwd.
  destruct (CreditShift_accept_weights _ _ _ Hupd)
    as (gid' & cid' & old' & new & Hgid' & Hcid' & Hold' & Hshift & _ & Hframe).
  change (@num QNum) with Q in *. change (@ltb QNum) with Qltb in *.
  rewrite Hgid in Hgid'. injection Hgid' as <-.
  rewrite Hcid in Hcid'. injection Hcid' as <-.
  rewrite Hold in Hold'. injection Hold' as <-.
  assert (Hlen : (cid < length old)%nat)
    by (apply nth_error_Some; rewrite Hw; discriminate).
  assert (Ht : target_cluster cid (truthy (will_default s)) (length old) <> cid).
  { rewrite (target_cluster_saturates _ _ _ Hlen).
    destruct (truthy (will_default s)); lia. }
  pose proof (shift_mass_pointwise (N := QNum) _ _ _ _ _ _ Hshift Hw cid)
    as Hnew.
  cbv zeta in Hnew. rewrite Nat.eqb_refl in Hnew.
  apply Nat.eqb_neq in Ht. rewrite Nat.eqb_sym in Ht. rewrite Ht in Hnew.
  assert (Hzero : (sub (PyNum := QNum) w
                     (py_min (N := QNum) (cluster_shift_increment (params s)) w)
                   == 0)%Q).
  { unfold py_min. simpl.
    destruct (Qltb w (cluster_shift_increment (params s))) eqn:E.
    - ring.
    - apply Qltb_ge in E. assert (Heq : (cluster_shift_increment (params s) == w)%Q)
        by (apply Qle_antisym; assumption).
      rewrite Heq. ring. }
  split.
  - exists new. eexists. rewrite Hframe, Nat.eqb_refl.
    split; [reflexivity|]. split; [exact Hnew | exact Hzero].
  - intros s'' Hupd'.
    apply CreditShift_accept_inv in Hupd'.
    destruct Hupd' as (gid2 & m2 & cid2 & w2 & _ & _ & _ & Hgid2 & Hm2 & Hcid2
                       & Hw2 & Hpos & _).
    change (@num QNum) with Q in *. change (@ltb QNum) with Qltb in *.
    rewrite Hi, Hgid in Hgid2. injection Hgid2 as <-.
    rewrite Hf, Hcid in Hcid2. injection Hcid2 as <-.
    pose proof (Hframe gid) as Hfr. rewrite Nat.eqb_refl in Hfr.
    unfold cluster_weights in Hfr. rewrite Hm2 in Hfr. simpl in Hfr.
    injection Hfr as Hfr. rewrite Hfr, Hnew in Hw2. injection Hw2 as <-.
    apply Qltb_lt in Hpos. simpl in Hpos, Hzero. rewrite Hzero in Hpos.
    apply (Qlt_irrefl 0 Hpos).
Qed.

Lemma CreditShift_drained_cluster_is_refused_witness :
  (exists new z, cluster_weights scenario_shifted_Q 0 = Some new /\
                 nth_error new 1 = Some z /\ (z == 0)%Q) /\
  forall s'', _CreditShift_update (R := CounterRandom QNum) 9%nat
                scenario_shifted_Q (Some ACCEPT) <> Ok s''.
Proof.
  apply (CreditShift_drained_cluster_is_refused (CounterRandom QNum) 7%nat
           9%nat (scenario_state_Q 1 true) scenario_shifted_Q 0%nat 1%nat
           [1 # 2; 3 # 10; 1 # 5]%Q (3 # 10)%Q).
  - vm_compute. reflexivity.
  - reflexivity.
  - reflexivity.
  - reflexivity.
  - reflexivity.
  - vm_compute. discriminate.
  - simpl. lia.
Defined.

Section CreditShiftGuards.
Context {N : PyNum} {R : PyRandom N}.

(** X4. An accepted update raises the out-of-sync assertion exactly when
    the group index of the state is not the argmax of its group vector (an
    unset index included); no later stage raises that error, and such a
    state is refused before any weight is read. *)
Theorem CreditShift_out_of_sync_iff (fresh : RandomState) (s : State) :
  _CreditShift_update fresh s (Some ACCEPT)
    = Raise (AssertionError GroupIdOutOfSync) <->
  exists i, np_argmax_opt Z.ltb (group s) = Ok i /\ group_id s <> Some i.
Proof.
  split.
  - unfold _CreditShift_update. intros H.
    destruct (np_argmax_opt Z.ltb (group s)) as [gid|e] eqn:Hg; cbn [bind] in H;
      [|apply np_argmax_opt_Raise in Hg; congruence].
    exists gid. split; [reflexivity|].
    destruct (group_id_eqb (group_id s) gid) eqn:Hsync; cbn [assert bind] in H.
    2:{ intros Heq. rewrite Heq in Hsync. simpl in Hsync.
        rewrite Nat.eqb_refl in Hsync. discriminate. }
    exfalso.
    destruct (getitem (components (applicant_distribution (params s))) gid)
      as [m|e] eqn:Hm; cbn [bind] in H;
      [|apply getitem_Raise in Hm; congruence].
    destruct (check_sampled_group 10 m (group s) fresh) as [rng1|e] eqn:Hl1;
      cbn [bind] in H;
      [|apply check_sampled_group_Raise in Hl1;
        destruct Hl1 as [|[|]]; congruence].
    destruct (check_argmax 0 (cluster_components m) rng1) as [rng2|e] eqn:Hl2;
      cbn [bind] in H;
      [|apply check_argmax_Raise in Hl2; destruct Hl2; congruence].
    destruct (np_argmax_opt ltb (applicant_features s)) as [cid|e] eqn:Hcid;
      cbn [bind] in H;
      [|apply np_argmax_opt_Raise in Hcid; congruence].
    destruct (getitem (weights m) cid) as [w|e] eqn:Hw; cbn [bind] in H;
      [|apply getitem_Raise in Hw; congruence].
    destruct (assert (ltb zero w) ClusterHasNoMass) as [u1|e] eqn:Hpos;
      cbn [bind] in H;
      [|apply assert_Raise in Hpos; destruct Hpos; congruence].
    destruct (shift_mass (weights m) cid
                (target_cluster cid (truthy (will_default s)) (length (weights m)))
                (cluster_shift_increment (params s))) as [probs'|e] eqn:Hshift;
      cbn [bind] in H;
      [|apply shift_mass_Raise in Hshift; congruence].
    destruct (assert (sums_to_one probs') ProbsDoNotSumToOne) as [u2|e] eqn:Hsum;
      cbn [bind] in H;
      [|apply assert_Raise in Hsum; destruct Hsum; congruence].
    destruct (assert (non_negative probs') NegativeProb) as [u3|e] eqn:Hnn;
      cbn [bind] in H;
      [|apply assert_Raise in Hnn; destruct Hnn; congruence].
    destruct (setitem (components (applicant_distribution (params s))) gid
                (set_weights m probs')) as [comps'|e] eqn:Hset;
      cbn [bind] in H; [discriminate|].
    apply setitem_Raise in Hset; congruence.
  - intros (i & Hi & Hne). unfold _CreditShift_update.
    rewrite Hi. cbn [bind].
    destruct (group_id_eqb (group_id s) i) eqn:E; [|reflexivity].
    apply group_id_eqb_true in E. contradiction.
Qed.

(** X5. The cash update and the credit shift commute: run in either order
    on a state, with the same action, they return the same state or the
    credit shift raises the same error, since neither reads what the other
    writes. *)
Theorem cash_update_and_credit_shift_commute (fresh : RandomState)
    (s : State) (action : LoanDecision) :
  (s1 <- _CashUpdater_update s (Some action) ;;
   _CreditShift_update fresh s1 (Some action))
  = (s1 <- _CreditShift_update fresh s (Some action) ;;
     _CashUpdater_update s1 (Some action)).
Proof.
  rewrite CashUpdater_update_Ok. cbn [bind].
  rewrite CreditShift_ignores_cash.
  destruct (_CreditShift_update fresh s (Some action)) as [s1|e] eqn:Hupd;
    cbn [bind]; [|reflexivity].
  rewrite CashUpdater_update_Ok. f_equal. f_equal.
  destruct action.
  - simpl in Hupd. injection Hupd as <-. reflexivity.
  - destruct (CreditShift_keeps_fields _ _ _ Hupd) as (_ & Hcash & Happ & Hpar).
    unfold applicant_of in Happ. injection Happ as _ _ _ Hwd.
    unfold cash_after. rewrite Hcash, Hwd, <- Hpar. reflexivity.
Qed.
End CreditShiftGuards.

(** ** The applicant sampler *)

Lemma clip1_Q_within (lo hi x : Q) :
  (lo <= hi)%Q ->
  (lo <= clip1 (N := QNum) lo hi x)%Q /\ (clip1 (N := QNum) lo hi x <= hi)%Q.
Proof.
  intros Hle. unfold clip1. simpl.
  destruct (Qltb x lo) eqn:E1.
  - destruct (Qltb hi lo) eqn:E2.
    + split; [exact Hle | apply Qle_refl].
    + apply Qltb_ge in E2. split; [apply Qle_refl | exact E2].
  - apply Qltb_ge in E1. destruct (Qltb hi x) eqn:E2.
    + split; [exact Hle | apply Qle_refl].
    + apply Qltb_ge in E2. split; assumption.
Qed.

Lemma clip1_Q_inside (lo hi x : Q) :
  (lo <= x)%Q -> (x <= hi)%Q -> clip1 (N := QNum) lo hi x = x.
Proof.
  intros H1 H2. unfold clip1. simpl.
  apply Qltb_ge in H1, H2. rewrite H1, H2. reflexivity.
Qed.

Lemma np_clip_Q_inside (lo hi : Q) (l : list Q) :
  Forall (fun x => lo <= x /\ x <= hi)%Q l -> np_clip (N := QNum) l lo hi = l.
Proof.
  unfold np_clip. induction 1 as [|x l [H1 H2] _ IH]; [reflexivity|].
  simpl. rewrite (clip1_Q_inside _ _ _ H1 H2). f_equal. exact IH.
Qed.

(** X6. In exact arithmetic, with [min_observation <= max_observation],
    the features the sampler stores have the length of the features drawn
    and lie element by element within the two bounds; features drawn within
    the bounds are stored as drawn. *)
Theorem sampled_features_are_clipped (R : PyRandom QNum) (s s' : @State QNum R)
    (action : option LoanDecision) :
  (min_observation (params s) <= max_observation (params s))%Q ->
  _ApplicantSampler_update s action = Ok s' ->
  exists (a : Applicant) (f : list Q),
    sample (applicant_distribution (params s)) (rng s) = Ok (a, rng s') /\
    applicant_features s' = Some f /\
    length f = length (features a) /\
    Forall (fun x => min_observation (params s) <= x
                     /\ x <= max_observation (params s))%Q f /\
    (Forall (fun x => min_observation (params s) <= x
                      /\ x <= max_observation (params s))%Q (features a) ->
     f = features a).
Proof.
  intros Hle H. apply ApplicantSampler_update_inv in H.
  destruct H as (a & gid & Hdraw & _ & Happ & _).
  unfold applicant_of in Happ. injection Happ as Hf _ _ _.
  exists a. eexists. split; [exact Hdraw|]. split; [exact Hf|].
  unfold np_clip. split; [apply length_map|]. split.
  - apply Forall_forall. intros x Hx. apply in_map_iff in Hx.
    destruct Hx as (y & <- & _). apply clip1_Q_within, Hle.
  - apply np_clip_Q_inside.
Qed.

Lemma sampled_features_are_clipped_witness :
  exists f : list Q,
    applicant_features scenario_initial_Q = Some f /\
    Forall (fun x => 0 <= x /\ x <= 1)%Q f.
Proof.
  destruct (sampled_features_are_clipped (CounterRandom QNum)
              (@Build_State QNum (CounterRandom QNum) 0%nat scenario_params_Q
                 10000%Q None None None None)
              scenario_initial_Q None)
    as (a & f & _ & Hf & _ & Hin & _).
  - vm_compute. discriminate.
  - vm_compute. reflexivity.
  - exists f. split; [exact Hf | exact Hin].
Defined.

(** The scan of [np.argmax] over integers ends on the first largest
    element of what it has seen. *)
Lemma argmax_from_Z_first_maximum (l : list Z) :
  forall (pre : list Z) (bi : nat) (b : Z),
    nth_error pre bi = Some b ->
    Forall (fun y => y <= b)%Z pre ->
    (forall j y, (j < bi)%nat -> nth_error pre j = Some y -> (y < b)%Z) ->
    exists x,
      nth_error (pre ++ l) (argmax_from Z.ltb bi b (length pre) l) = Some x /\
      Forall (fun y => y <= x)%Z (pre ++ l) /\
      (forall j y, (j < argmax_from Z.ltb bi b (length pre) l)%nat ->
                   nth_error (pre ++ l) j = Some y -> (y < x)%Z).
Proof.
  induction l as [|x l IH]; intros pre bi b Hb Hmax Hfirst.
  - simpl. rewrite app_nil_r. exists b. auto.
  - assert (Hbi : (bi < length pre)%nat)
      by (apply nth_error_Some; rewrite Hb; discriminate).
    assert (Hlen : length (pre ++ [x]) = S (length pre))
      by (rewrite length_app; simpl; lia).
    cbn [argmax_from]. destruct (Z.ltb b x) eqn:E.
    + apply Z.ltb_lt in E.
      destruct (IH (pre ++ [x]) (length pre) x) as (m & Hm & Hall & Hlow).
      * rewrite nth_error_app2, Nat.sub_diag by lia. reflexivity.
      * apply Forall_app. split.
        -- eapply Forall_impl; [|exact Hmax]. simpl. intros y Hy. lia.
        -- constructor; [lia | constructor].
      * intros j y Hj Hy. rewrite nth_error_app1 in Hy by lia.
        pose proof (proj1 (Forall_forall _ _) Hmax y (nth_error_In _ _ Hy)).
        simpl in H. lia.
      * rewrite Hlen, <- app_assoc in *. simpl in *. exists m. auto.
    + apply Z.ltb_ge in E.
      destruct (IH (pre ++ [x]) bi b) as (m & Hm & Hall & Hlow).
      * rewrite nth_error_app1 by lia. exact Hb.
      * apply Forall_app. split; [exact Hmax|].
        constructor; [exact E | constructor].
      * intros j y Hj Hy. rewrite nth_error_app1 in Hy by lia.
        apply (Hfirst j y Hj Hy).
      * rewrite Hlen, <- app_assoc in *. simpl in *. exists m. auto.
Qed.

Lemma np_argmax_Z_first_maximum (g : list Z) (gid : nat) :
  np_argmax Z.ltb g = Ok gid ->
  exists x,
    nth_error g gid = Some x /\
    Forall (fun y => y <= x)%Z g /\
    (forall j y, (j < gid)%nat -> nth_error g j = Some y -> (y < x)%Z).
Proof.
  destruct g as [|x g]; simpl; [discriminate|].
  intros H. injection H as <-.
  apply (argmax_from_Z_first_maximum g [x] 0%nat x).
  - reflexivity.
  - constructor; [lia | constructor].
  - intros j y Hj. lia.
Qed.

Section SamplerGroup.
Context {N : PyNum} {R : PyRandom N}.

(** X7. The group index the sampler stores points at a largest entry of
    the group vector it stores, and at the first such entry: every entry is
    at most the one at the index, and every earlier entry is strictly
    smaller. *)
Theorem sampled_group_id_is_first_maximum (s s' : State)
    (action : option LoanDecision) :
  _ApplicantSampler_update s action = Ok s' ->
  exists (g : list Z) (gid : nat) (x : Z),
    group s' = Some g /\ group_id s' = Some gid /\
    nth_error g gid = Some x /\
    Forall (fun y => y <= x)%Z g /\
    (forall j y, (j < gid)%nat -> nth_error g j = Some y -> (y < x)%Z).
Proof.
  intros H. apply ApplicantSampler_in_sync in H.
  destruct H as (g & gid & Hg & Hgid & Hmax).
  destruct (np_argmax_Z_first_maximum _ _ Hmax) as (x & Hx).
  exists g, gid, x. auto.
Qed.

Lemma nth_error_one_hot (n i j : nat) :
  (j < n)%nat ->
  nth_error (one_hot 1%Z 0%Z n i) j = Some (if Nat.eqb j i then 1%Z else 0%Z).
Proof.
  intros Hj. unfold one_hot.
  rewrite nth_error_map, nth_error_seq.
  destruct (Nat.ltb_spec j n); [reflexivity | lia].
Qed.

(** X8. When the group vector drawn is the one-hot encoding of group [i],
    the group index the sampler stores is [i]. *)
Theorem sampled_one_hot_group_id (s s' : State) (action : option LoanDecision)
    (n i : nat) :
  _ApplicantSampler_update s action = Ok s' ->
  group s' = Some (one_hot 1%Z 0%Z n i) ->
  (i < n)%nat ->
  group_id s' = Some i.
Proof.
  intros H Hg Hi.
  apply ApplicantSampler_in_sync in H.
  destruct H as (g & gid & Hg' & Hgid & Hmax).
  destruct (np_argmax_Z_first_maximum _ _ Hmax) as (x & Hx & Hall & Hlow).
  rewrite Hg in Hg'. injection Hg' as <-.
  assert (Hlen : length (one_hot 1%Z 0%Z n i) = n)
    by (unfold one_hot; rewrite length_map, length_seq; reflexivity).
  assert (Hgn : (gid < n)%nat)
    by (rewrite <- Hlen; apply nth_error_Some; rewrite Hx; discriminate).
  pose proof (nth_error_one_hot n i i Hi) as Hone. rewrite Nat.eqb_refl in Hone.
  pose proof (proj1 (Forall_forall _ _) Hall _ (nth_error_In _ _ Hone)) as Hge.
  simpl in Hge.
  rewrite (nth_error_one_hot n i gid Hgn) in Hx.
  destruct (Nat.eqb gid i) eqn:E.
  - apply Nat.eqb_eq in E. subst. exact Hgid.
  - injection Hx as <-. lia.
Qed.
End SamplerGroup.

Lemma sampled_group_id_is_first_maximum_witness :
  exists (g : list Z) (gid : nat) (x : Z),
    group scenario_initial_Q = Some g /\ group_id scenario_initial_Q = Some gid /\
    nth_error g gid = Some x /\
    Forall (fun y => y <= x)%Z g /\
    (forall j y, (j < gid)%nat -> nth_error g j = Some y -> (y < x)%Z).
Proof.
  apply (@sampled_group_id_is_first_maximum QNum (CounterRandom QNum)
           (@Build_State QNum (CounterRandom QNum) 0%nat scenario_params_Q
              10000%Q None None None None)
           scenario_initial_Q None).
  vm_compute. reflexivity.
Defined.

Lemma sampled_one_hot_group_id_witness : group_id scenario_initial_Q = Some 0%nat.
Proof.
  apply (@sampled_one_hot_group_id QNum (CounterRandom QNum)
           (@Build_State QNum (CounterRandom QNum) 0%nat scenario_params_Q
              10000%Q None None None None)
           scenario_initial_Q None 2%nat 0%nat).
  - vm_compute. reflexivity.
  - reflexivity.
  - lia.
Defined.

Section SamplerReturns.
Context {N : PyNum} {R : PyRandom N}.

(** X9. The sampler returns exactly when the draw from the population
    returns an applicant whose group vector is not empty; it then leaves
    the parameters and the bank cash as they were and the random source as
    the draw left it.  When it raises, it raises what the draw raised, or
    the [ValueError] of [np.argmax] on an empty group vector. *)
Theorem ApplicantSampler_returns_iff (s : State) (action : option LoanDecision) :
  ((exists s', _ApplicantSampler_update s action = Ok s') <->
   (exists a rng',
       sample (applicant_distribution (params s)) (rng s) = Ok (a, rng')
       /\ applicant_group a <> [])) /\
  (forall s', _ApplicantSampler_update s action = Ok s' ->
     params s' = params s /\ bank_cash s' = bank_cash s /\
     exists a, sample (applicant_distribution (params s)) (rng s)
               = Ok (a, rng s')) /\
  (forall e, _ApplicantSampler_update s action = Raise e ->
     sample (applicant_distribution (params s)) (rng s) = Raise e \/
     (e = ValueError /\
      exists a rng',
        sample (applicant_distribution (params s)) (rng s) = Ok (a, rng')
        /\ applicant_group a = [])).
Proof.
  split; [split|split].
  - intros [s' H]. apply ApplicantSampler_update_inv in H.
    destruct H as (a & gid & Hdraw & Hgid & _).
    exists a, (rng s'). split; [exact Hdraw|].
    intros Hnil. rewrite Hnil in Hgid. discriminate.
  - intros (a & rng' & Hdraw & Hne). unfold _ApplicantSampler_update.
    rewrite Hdraw. cbn [bind].
    destruct (applicant_group a) as [|x g] eqn:Hg; [contradiction|].
    cbn [np_argmax bind]. eauto.
  - intros s' H. apply ApplicantSampler_update_inv in H.
    destruct H as (a & gid & Hdraw & _ & _ & Hpar & Hcash). eauto.
  - intros e H. unfold _ApplicantSampler_update in H.
    destruct (sample (applicant_distribution (params s)) (rng s))
      as [[a rng']|e'] eqn:Hdraw; cbn [bind] in H.
    + right. destruct (applicant_group a) as [|x g] eqn:Hg;
        cbn [np_argmax bind] in H; [|discriminate].
      injection H as <-. split; [reflexivity|]. exists a, rng'. auto.
    + left. congruence.
Qed.
End SamplerReturns.

(** ** Reset and the parameters along an episode *)

Section EpisodeFrame.
Context {N : PyNum} {R : PyRandom N}.

Lemma Forall2_setitem_left {A B : Type} (P : A -> B -> Prop) (l : list A) :
  forall (l0 : list B) i v l' x,
    Forall2 P l l0 ->
    setitem l i v = Ok l' ->
    nth_error l i = Some x ->
    (forall y, P x y -> P v y) ->
    Forall2 P l' l0.
Proof.
  induction l as [|a l IH]; intros l0 i v l' x HP Hset Hx Hv.
  - destruct i; discriminate.
  - inversion HP as [|? b ? l0' Hab Hrest]; subst.
    destruct i as [|i]; simpl in Hset, Hx.
    + injection Hset as <-. injection Hx as <-. constructor; auto.
    + bind_inv Hset. injection Hset as <-. constructor; [exact Hab|].
      apply (IH l0' i v a0 x Hrest E Hx Hv).
Qed.

Lemma same_population_shape_refl (d : Distribution) :
  same_population_shape d d.
Proof.
  split; [reflexivity|].
  induction (components d); constructor; auto.
Qed.

Lemma parameter_updater_keeps_shape (env : LendingEnv) (fresh : RandomState)
    (s s' : State) (action : LoanDecision) (d0 : Distribution) :
  lending_variant env ->
  _parameter_updater env fresh s (Some action) = Ok s' ->
  same_population_shape (applicant_distribution (params s)) d0 ->
  same_population_shape (applicant_distribution (params s')) d0.
Proof.
  intros [-> | ->]; cbn [_parameter_updater DelayedImpactEnv BaseLendingEnv].
  - unfold NoUpdate_update. intros H; injection H as <-. auto.
  - destruct action; [simpl; intros H; injection H as <-; auto|].
    intros H [Hmix Hshape]. apply CreditShift_accept_inv in H.
    destruct H as (gid & m & cid & w & probs' & comps' & _ & _ & Hm & _ & _
                   & _ & Hshift & _ & _ & Hset & ->).
    cbn [set_params set_applicant_distribution set_components params
         applicant_distribution components mixture_weights].
    split; [exact Hmix|].
    apply (Forall2_setitem_left _ _ _ _ _ _ m Hshape Hset Hm).
    intros m0 [Hc Hl]. cbn [set_weights cluster_components weights].
    rewrite (shift_mass_length _ _ _ _ _ Hshift). auto.
Qed.

(** X11. Along an episode only the values of the cluster weights change:
    in every reachable state the scalar parameters and the top-level group
    weights are those of the initial parameters, and the population has the
    same groups with the same cluster components and the same number of
    weights in each. *)
Theorem episode_changes_only_cluster_weights (env : LendingEnv)
    (initial_params : Params) (s : State) :
  lending_variant env ->
  reachable env initial_params s ->
  set_applicant_distribution (params s) (applicant_distribution initial_params)
    = initial_params /\
  same_population_shape (applicant_distribution (params s))
    (applicant_distribution initial_params).
Proof.
  intros Henv Hreach.
  assert (Ha : _applicant_updater env = _ApplicantSampler_update)
    by (destruct Henv; subst; reflexivity).
  induction Hreach as [rng0 s H0 | s fresh action s' _ IH _ Hstep].
  - unfold _state_init in H0. rewrite Ha in H0.
    apply ApplicantSampler_update_inv in H0.
    destruct H0 as (a & gid & _ & _ & _ & Hpar & _).
    cbn [params] in Hpar. rewrite Hpar. split.
    + destruct initial_params. reflexivity.
    + apply same_population_shape_refl.
  - destruct IH as [Hscal Hshape].
    destruct (step_impl_inv _ _ _ _ _ Henv Hstep) as (s2 & Hp & Hsample).
    apply ApplicantSampler_update_inv in Hsample.
    destruct Hsample as (a & gid & _ & _ & _ & Hpar & _).
    rewrite Hpar. split.
    + destruct (parameter_updater_frame _ _ _ _ _ Henv Hp)
        as (_ & _ & _ & _ & _ & _).
      assert (Hs2 : set_applicant_distribution (params s2)
                      (applicant_distribution (params s)) = params s).
      { destruct Henv as [-> | ->];
          cbn [_parameter_updater DelayedImpactEnv BaseLendingEnv] in Hp.
        - unfold NoUpdate_update in Hp. injection Hp as <-.
          cbn [set_bank_cash params]. destruct (params s). reflexivity.
        - destruct action.
          + simpl in Hp. injection Hp as <-.
            cbn [set_bank_cash params]. destruct (params s). reflexivity.
          + destruct (CreditShift_keeps_fields _ _ _ Hp) as (_ & _ & _ & H).
            exact H. }
      rewrite <- Hscal at 2. rewrite <- Hs2.
      destruct (params s2). reflexivity.
    + apply (parameter_updater_keeps_shape _ _ _ _ _ _ Henv Hp). exact Hshape.
Qed.

(** X13. A rejection changes neither the bank cash nor any parameter, the
    cluster weights included, and so never changes whether the environment
    is done: the step only draws the next applicant. *)
Theorem rejection_keeps_cash_and_population (env : LendingEnv)
    (fresh : RandomState) (s s' : State) :
  lending_variant env ->
  _step_impl env fresh s REJECT = Ok s' ->
  bank_cash s' = bank_cash s /\ params s' = params s /\
  _is_done s' = _is_done s /\
  exists a, sample (applicant_distribution (params s)) (rng s) = Ok (a, rng s').
Proof.
  intros Henv H.
  destruct (step_impl_inv _ _ _ _ _ Henv H) as (s2 & Hp & Hsample).
  assert (Hs2 : s2 = s).
  { cbn [cash_after] in Hp.
    destruct Henv as [-> | ->];
      cbn [_parameter_updater DelayedImpactEnv BaseLendingEnv] in Hp;
      [unfold NoUpdate_update in Hp | simpl in Hp];
      injection Hp as <-; destruct s; reflexivity. }
  subst s2. apply ApplicantSampler_update_inv in Hsample.
  destruct Hsample as (a & gid & Hdraw & _ & _ & Hpar & Hcash).
  unfold _is_done. rewrite Hpar, Hcash. eauto.
Qed.
End EpisodeFrame.

Lemma episode_changes_only_cluster_weights_witness :
  same_population_shape
    (applicant_distribution
       (params (returned scenario_initial_Q
                  (_step_impl (R := CounterRandom QNum) DelayedImpactEnv 7%nat
                     scenario_initial_Q ACCEPT))))
    (applicant_distribution scenario_params_Q).
Proof.
  apply (@episode_changes_only_cluster_weights QNum (CounterRandom QNum)
           DelayedImpactEnv scenario_params_Q).
  - right. reflexivity.
  - apply reachable_step with (s := scenario_initial_Q) (fresh := 7%nat)
                              (action := ACCEPT).
    + apply reachable_init with (rng0 := 0%nat). vm_compute. reflexivity.
    + reflexivity.
    + vm_compute. reflexivity.
Defined.

Lemma rejection_keeps_cash_and_population_witness :
  bank_cash (returned scenario_last_loan_Q
               (_step_impl (R := CounterRandom QNum) DelayedImpactEnv 7%nat
                  (scenario_state_Q 1 true) REJECT))
  = bank_cash (scenario_state_Q 1 true).
Proof.
  apply (@rejection_keeps_cash_and_population QNum (CounterRandom QNum)
           DelayedImpactEnv 7%nat (scenario_state_Q 1 true)).
  - right. reflexivity.
  - vm_compute. reflexivity.
Defined.

(** ** Cash along an episode, in exact arithmetic *)

Section CashAlongEpisode.
Context {R : PyRandom QNum}.

(** What a returning step leaves of the cash and of the two scalars that
    decide termination. *)
Lemma step_impl_cash_and_scalars {N : PyNum} {R' : PyRandom N}
    (env : @LendingEnv N R') (fresh : RandomState) (s s' : @State N R')
    (action : LoanDecision) :
  lending_variant env ->
  _step_impl env fresh s action = Ok s' ->
  bank_cash s' = cash_after s action /\
  loan_amount (params s') = loan_amount (params s) /\
  interest_rate (params s') = interest_rate (params s).
Proof.
  intros Henv H.
  destruct (step_impl_inv _ _ _ _ _ Henv H) as (s2 & Hp & Hsample).
  destruct (parameter_updater_frame _ _ _ _ _ Henv Hp)
    as (_ & Hcash & _ & Hl & Hi & _).
  apply ApplicantSampler_update_inv in Hsample.
  destruct Hsample as (a & gid & _ & _ & _ & Hpar & Hcash').
  cbn [set_bank_cash bank_cash params] in Hcash, Hl, Hi.
  rewrite Hpar, Hcash', Hcash, Hl, Hi. auto.
Qed.

(** X14. With a non-negative loan amount and interest rate, a step lowers
    the bank cash by at most one loan amount, and lowers it at all only
    when an applicant who will default is accepted; hence only an accepted
    default takes an environment that is not done to one that is. *)
Theorem step_lowers_cash_only_on_accepted_default (env : LendingEnv)
    (fresh : RandomState) (s s' : @State QNum R) (action : LoanDecision) :
  lending_variant env ->
  (0 <= loan_amount (params s))%Q ->
  (0 <= interest_rate (params s))%Q ->
  _step_impl env fresh s action = Ok s' ->
  (bank_cash s - loan_amount (params s) <= bank_cash s')%Q /\
  ((bank_cash s' < bank_cash s)%Q ->
   action = ACCEPT /\ will_default s = Some true) /\
  (_is_done s = false -> _is_done s' = true ->
   action = ACCEPT /\ will_default s = Some true).
Proof.
  intros Henv Hloan Hint H.
  destruct (step_impl_cash_and_scalars _ _ _ _ _ Henv H) as (Hcash & Hl & Hi).
  assert (Hgain : (0 <= loan_amount (params s) * interest_rate (params s))%Q)
    by (apply Qmult_le_0_compat; assumption).
  assert (Hlow : (bank_cash s' < bank_cash s)%Q ->
                 action = ACCEPT /\ will_default s = Some true).
  { rewrite Hcash. unfold cash_after. destruct action.
    - intros Hlt. exfalso. apply (Qlt_irrefl _ Hlt).
    - destruct (will_default s) as [[|]|]; simpl; auto; intros Hlt; exfalso.
      + apply (Qlt_not_le _ _ Hlt).
        rewrite <- (Qplus_0_r (bank_cash s)) at 1.
        apply Qplus_le_compat; [apply Qle_refl | exact Hgain].
      + apply (Qlt_not_le _ _ Hlt).
        rewrite <- (Qplus_0_r (bank_cash s)) at 1.
        apply Qplus_le_compat; [apply Qle_refl | exact Hgain]. }
  split; [|split; [exact Hlow|]].
  - rewrite Hcash. unfold cash_after. destruct action.
    + apply (Qplus_le_l _ _ (loan_amount (params s))). ring_simplify.
      rewrite <- (Qplus_0_r (bank_cash s)) at 1.
      apply Qplus_le_compat; [apply Qle_refl | exact Hloan].
    + destruct (truthy (will_default s)); simpl.
      * apply Qle_refl.
      * apply Qplus_le_compat.
        -- apply Qle_refl.
        -- apply Qle_trans with (y := 0%Q); [|exact Hgain].
           apply (Qopp_le_compat 0). exact Hloan.
  - intros Hnot Hdone. apply Hlow.
    apply is_done_Q_false_iff in Hnot. apply is_done_Q_iff in Hdone.
    rewrite Hl in Hdone. apply (Qlt_le_trans _ _ _ Hdone Hnot).
Qed.
End CashAlongEpisode.

From Stdlib Require Import Lqa.

Section EpisodeLength.
Context {R : PyRandom QNum}.

Lemma cash_after_lower_bound (s : @State QNum R) (action : LoanDecision) :
  (0 <= loan_amount (params s))%Q ->
  (0 <= interest_rate (params s))%Q ->
  (bank_cash s - loan_amount (params s) <= cash_after s action)%Q.
Proof.
  intros Hloan Hint.
  assert (Hgain : (0 <= loan_amount (params s) * interest_rate (params s))%Q)
    by (apply Qmult_le_0_compat; assumption).
  unfold cash_after. destruct action; [|destruct (truthy (will_default s))];
    simpl; simpl in Hgain, Hloan; lra.
Qed.

Lemma inject_Z_of_nat_succ (k : nat) :
  (inject_Z (Z.of_nat (S k)) == inject_Z (Z.of_nat k) + 1)%Q.
Proof.
  rewrite Nat2Z.inj_succ. unfold Z.succ. rewrite inject_Z_plus. reflexivity.
Qed.

Lemma inject_Z_of_nat_nonneg (k : nat) : (0 <= inject_Z (Z.of_nat k))%Q.
Proof.
  change 0%Q with (inject_Z 0). rewrite <- Zle_Qle. lia.
Qed.

(** X15. With a non-negative loan amount and interest rate, a bank whose
    cash covers [k + 1] loans cannot be done within [k] steps: every state
    along a returning sequence of [k] steps, whatever the actions and the
    applicants, is not done. *)
Theorem episode_outlasts_cash (env : LendingEnv)
    (actions : list (LoanDecision * RandomState)) :
  lending_variant env ->
  forall (s : @State QNum R) (l : list State),
    (0 <= loan_amount (params s))%Q ->
    (0 <= interest_rate (params s))%Q ->
    (inject_Z (Z.of_nat (length actions)) * loan_amount (params s)
     + loan_amount (params s) <= bank_cash s)%Q ->
    steps env s actions = Ok l ->
    length l = length actions /\
    Forall (fun s' => _is_done s' = false) l.
Proof.
  intros Henv.
  induction actions as [|[a f] actions IH]; intros s l Hloan Hint Hcash H;
    simpl in H.
  - injection H as <-. split; [reflexivity | constructor].
  - bind_inv H. rename a0 into s1, E into Hstep.
    bind_inv H. rename a0 into tl, E into Hrest. injection H as <-.
    apply step_Ok_iff in Hstep. destruct Hstep as [_ Hstep].
    destruct (step_impl_cash_and_scalars _ _ _ _ _ Henv Hstep)
      as (Hc & Hl & Hi).
    pose proof (cash_after_lower_bound s a Hloan Hint) as Hlow.
    rewrite <- Hc in Hlow.
    pose proof (inject_Z_of_nat_nonneg (length actions)) as Hk.
    cbn [length] in Hcash. rewrite inject_Z_of_nat_succ in Hcash.
    assert (Hexp : ((inject_Z (Z.of_nat (length actions)) + 1)
                    * loan_amount (params s)
                    == inject_Z (Z.of_nat (length actions))
                       * loan_amount (params s) + loan_amount (params s))%Q)
      by ring.
    rewrite Hexp in Hcash. clear Hexp.
    assert (Hprod : (0 <= inject_Z (Z.of_nat (length actions))
                          * loan_amount (params s))%Q)
      by (apply Qmult_le_0_compat; assumption).
    assert (Hcash1 : (inject_Z (Z.of_nat (length actions))
                      * loan_amount (params s1)
                      + loan_amount (params s1) <= bank_cash s1)%Q).
    { rewrite Hl.
      set (X := (inject_Z (Z.of_nat (length actions))
                 * loan_amount (params s))%Q) in *.
      simpl in Hcash, Hlow, Hloan |- *. lra. }
    destruct (IH s1 tl) as [Hlen Hall];
      [rewrite Hl; exact Hloan | rewrite Hi; exact Hint | exact Hcash1
      | exact Hrest |].
    split; [simpl; f_equal; exact Hlen|].
    constructor; [|exact Hall].
    apply is_done_Q_false_iff. rewrite Hl.
    set (X := (inject_Z (Z.of_nat (length actions))
               * loan_amount (params s))%Q) in *.
    simpl in Hcash, Hlow, Hloan, Hprod |- *. lra.
Qed.
End EpisodeLength.

Lemma step_lowers_cash_only_on_accepted_default_witness :
  (bank_cash scenario_last_loan_Q - loan_amount (params scenario_last_loan_Q)
   <= bank_cash scenario_broke_Q)%Q.
Proof.
  apply (@step_lowers_cash_only_on_accepted_default (CounterRandom QNum)
           DelayedImpactEnv 7%nat scenario_last_loan_Q scenario_broke_Q ACCEPT).
  - right. reflexivity.
  - vm_compute. discriminate.
  - vm_compute. discriminate.
  - vm_compute. reflexivity.
Defined.

Lemma episode_outlasts_cash_witness :
  Forall (fun s' => _is_done s' = false)
    (returned []
       (steps (R := CounterRandom QNum) DelayedImpactEnv scenario_initial_Q
          [(ACCEPT, 7%nat); (REJECT, 8%nat)])).
Proof.
  apply (@episode_outlasts_cash (CounterRandom QNum) DelayedImpactEnv
           [(ACCEPT, 7%nat); (REJECT, 8%nat)] (or_intror eq_refl)
           scenario_initial_Q).
  - vm_compute. discriminate.
  - vm_compute. discriminate.
  - vm_compute. discriminate.
  - vm_compute. reflexivity.
Defined.

Lemma scenario_params_weights_valid :
  forall g m,
    nth_error (components (applicant_distribution scenario_params_Q)) g = Some m ->
    valid_weights (N := QNum) (weights m).
Proof.
  intros g m Hm. destruct g as [|[|g]]; simpl in Hm.
  - injection Hm as <-. split; reflexivity.
  - injection Hm as <-. split; reflexivity.
  - destruct g; discriminate.
Qed.

Lemma reachable_weights_valid_witness :
  exists w,
    cluster_weights
      (returned scenario_initial_Q
         (_step_impl (R := CounterRandom QNum) DelayedImpactEnv 7%nat
            scenario_initial_Q ACCEPT)) 0 = Some w
    /\ valid_weights (N := QNum) w.
Proof.
  eexists. split; [vm_compute; reflexivity|].
  apply (@reachable_weights_valid QNum (CounterRandom QNum) DelayedImpactEnv
           scenario_params_Q
           (returned scenario_initial_Q
              (_step_impl (R := CounterRandom QNum) DelayedImpactEnv 7%nat
                 scenario_initial_Q ACCEPT))
           (or_intror eq_refl) scenario_params_weights_valid) with (g := 0%nat).
  - apply reachable_step with (s := scenario_initial_Q) (fresh := 7%nat)
                              (action := ACCEPT).
    + apply reachable_init with (rng0 := 0%nat). vm_compute. reflexivity.
    + reflexivity.
    + vm_compute. reflexivity.
  - vm_compute. reflexivity.
Defined.


Lemma CreditShift_accept_returns_Q_witness :
  exists s', _CreditShift_update (R := CounterRandom QNum) 7%nat
               (scenario_state_Q 1 true) (Some ACCEPT) = Ok s'.
Proof.
  apply (@CreditShift_accept_returns_Q (CounterRandom QNum) 7%nat 27%nat 30%nat
           (scenario_state_Q 1 true) 0%nat 1%nat
           (credit_group (N := QNum) [1; 0]%Z [1 # 2; 3 # 10; 1 # 5]%Q)
           (3 # 10)%Q).
  - reflexivity.
  - reflexivity.
  - reflexivity.
  - vm_compute. reflexivity.
  - vm_compute. reflexivity.
  - reflexivity.
  - reflexivity.
  - vm_compute. reflexivity.
  - vm_compute. discriminate.
  - split; reflexivity.
Defined.

(** * The random social graph *)

Lemma joins_sym (a b u v w w' : Z) :
  joins a b (u, v, w) = joins u v (a, b, w').
Proof.
  unfold joins. rewrite (Z.eqb_sym u a), (Z.eqb_sym v b), (Z.eqb_sym u b),
    (Z.eqb_sym v a).
  destruct (Z.eqb a u), (Z.eqb b v), (Z.eqb b u), (Z.eqb a v); reflexivity.
Qed.

Lemma ForallOrdPairs_snoc {A : Type} (P : A -> A -> Prop) (l : list A) (x : A) :
  ForallOrdPairs P l -> Forall (fun y => P y x) l ->
  ForallOrdPairs P (l ++ [x]).
Proof.
  induction 1 as [|y l Hy _ IH]; intros Hx; simpl.
  - constructor; constructor.
  - inversion Hx; subst. constructor.
    + apply Forall_app. split; [exact Hy | constructor; [assumption | constructor]].
    + apply IH. assumption.
Qed.

Lemma in_py_range (n : nat) (u : Z) :
  In u (py_range n) <-> (0 <= u < Z.of_nat n)%Z.
Proof.
  unfold py_range. rewrite in_map_iff. split.
  - intros (k & <- & Hk). apply in_seq in Hk. lia.
  - intros Hu. exists (Z.to_nat u). split; [lia|]. apply in_seq. lia.
Qed.

Lemma add_node_present (G : Graph) (n : Z) :
  In n (nodes G) -> add_node G n = G.
Proof.
  intros Hin. unfold add_node.
  assert (H : existsb (Z.eqb n) (nodes G) = true)
    by (apply existsb_exists; exists n; split; [exact Hin | apply Z.eqb_refl]).
  rewrite H. reflexivity.
Qed.

Lemma add_edge_keeps_invariant (G : Graph) (u v w : Z) :
  social_graph_invariant G ->
  (length (edges G) < num_edges)%nat ->
  (0 <= u < 40)%Z -> (0 <= v < 40)%Z -> (1 <= w <= 10)%Z ->
  u <> v -> has_edge G u v = false ->
  social_graph_invariant (add_edge G u v w).
Proof.
  intros (Hlen & Hnodes & Hok & Hdist) Hlt Hu Hv Hw Hne Hnew.
  unfold add_edge.
  rewrite (add_node_present G u)
    by (rewrite Hnodes; apply in_py_range; unfold num_nodes; lia).
  rewrite (add_node_present G v)
    by (rewrite Hnodes; apply in_py_range; unfold num_nodes; lia).
  rewrite Hnew. unfold social_graph_invariant. cbn [nodes edges].
  split; [rewrite length_app; simpl; lia|].
  split; [exact Hnodes|]. split.
  - apply Forall_app. split; [exact Hok|].
    constructor; [|constructor]. unfold edge_in_range. auto.
  - apply ForallOrdPairs_snoc; [exact Hdist|].
    apply Forall_forall. intros [[a b] w'] Hin. cbn [fst snd].
    rewrite (joins_sym a b u v w w').
    unfold has_edge in Hnew.
    destruct (joins u v (a, b, w')) eqn:E; [|reflexivity].
    assert (Hex : existsb (joins u v) (edges G) = true)
      by (apply existsb_exists; exists (a, b, w'); auto).
    congruence.
Qed.

Lemma social_graph_loop_invariant (P : PyRandomInt) :
  randint_in_range P ->
  forall (fuel : nat) (st : RandomModule) (G G' : Graph),
    social_graph_invariant G ->
    social_graph_loop fuel st G = Some G' ->
    social_graph_invariant G' /\ length (edges G') = num_edges.
Proof.
  intros Hrange. induction fuel as [|fuel IH]; intros st G G' Hinv H;
    cbn [social_graph_loop] in H;
    destruct (Nat.ltb (length (edges G)) num_edges) eqn:Hlt;
    try discriminate;
    try (injection H as <-; apply Nat.ltb_ge in Hlt;
         split; [exact Hinv | destruct Hinv as (Hle & _); lia]).
  apply Nat.ltb_lt in Hlt.
  pose proof (Hrange st 0%Z (Z.of_nat num_nodes - 1)%Z) as Hu.
  destruct (randint st 0 (Z.of_nat num_nodes - 1)) as [u st1].
  pose proof (Hrange st1 0%Z (Z.of_nat num_nodes - 1)%Z) as Hv.
  destruct (randint st1 0 (Z.of_nat num_nodes - 1)) as [v st2].
  cbn [fst] in Hu, Hv. unfold num_nodes in Hu, Hv.
  destruct (negb (Z.eqb u v) && negb (has_edge G u v)) eqn:Hcond.
  - pose proof (Hrange st2 1%Z 10%Z) as Hw.
    destruct (randint st2 1 10) as [w st3]. cbn [fst] in Hw.
    apply andb_true_iff in Hcond. destruct Hcond as [Hne Hnew].
    apply negb_true_iff in Hne, Hnew. apply Z.eqb_neq in Hne.
    apply (IH st3 (add_edge G u v w) G'); [|exact H].
    apply add_edge_keeps_invariant; try assumption; lia.
  - apply (IH st2 G G' Hinv H).
Qed.

(** X18. Whatever the random module draws within the bounds of [randint],
    a graph that [random_social_graph] returns has the forty nodes of
    [range(40)] and exactly eighty edges; every edge joins two different
    nodes with a weight from 1 to 10, and no two nodes are joined twice. *)
Theorem random_social_graph_shape (P : PyRandomInt) (fuel : nat) (G : Graph) :
  randint_in_range P ->
  random_social_graph fuel = Some G ->
  nodes G = py_range 40 /\
  length (edges G) = 80%nat /\
  Forall edge_in_range (edges G) /\
  edges_distinct (edges G).
Proof.
  intros Hrange H. unfold random_social_graph in H.
  destruct (social_graph_loop_invariant P Hrange fuel (seed 20%Z)
              (add_nodes_from Graph_new (py_range num_nodes)) G)
    as ((_ & Hnodes & Hok & Hdist) & Hlen).
  - assert (E : edges (add_nodes_from Graph_new (py_range num_nodes)) = [])
      by (vm_compute; reflexivity).
    unfold social_graph_invariant. rewrite E. split; [|split; [|split]].
    + simpl. lia.
    + vm_compute. reflexivity.
    + constructor.
    + constructor.
  - exact H.
  - auto.
Qed.

Lemma LcgRandom_in_range : randint_in_range LcgRandom.
Proof.
  intros st a b Hab. cbn [randint LcgRandom fst].
  pose proof (Z.mod_pos_bound (lcg_next st / 65536) (b - a + 1)) as Hm.
  lia.
Qed.

Lemma random_social_graph_shape_witness :
  exists G, random_social_graph (P := LcgRandom) 100 = Some G
            /\ length (edges G) = 80%nat.
Proof.
  eexists. split; [vm_compute; reflexivity|].
  apply (random_social_graph_shape LcgRandom 100).
  - exact LcgRandom_in_range.
  - vm_compute. reflexivity.
Defined.

(** * Further checks of the credit shift *)

Section CreditShiftChecks.
Context {N : PyNum} {R : PyRandom N}.

(** X20. An index outside its array raises [IndexError]: a group index, in
    sync with the group vector, that names no component of the population;
    and, once both check loops have passed, an argmax of the features that
    names no cluster weight. *)
Theorem CreditShift_index_out_of_range (fresh : RandomState) (s : State)
    (gid : nat) :
  np_argmax_opt Z.ltb (group s) = Ok gid ->
  group_id s = Some gid ->
  ((length (components (applicant_distribution (params s))) <= gid)%nat ->
   _CreditShift_update fresh s (Some ACCEPT) = Raise IndexError) /\
  (forall m rng1 rng2 cid,
     nth_error (components (applicant_distribution (params s))) gid = Some m ->
     check_sampled_group 10 m (group s) fresh = Ok rng1 ->
     check_argmax 0 (cluster_components m) rng1 = Ok rng2 ->
     np_argmax_opt ltb (applicant_features s) = Ok cid ->
     (length (weights m) <= cid)%nat ->
     _CreditShift_update fresh s (Some ACCEPT) = Raise IndexError).
Proof.
  intros Hg Hgid.
  split.
  - intros Hlen. unfold _CreditShift_update.
    rewrite Hg. cbn [bind]. rewrite Hgid. cbn [group_id_eqb].
    rewrite Nat.eqb_refl. cbn [assert bind].
    apply nth_error_None in Hlen. unfold getitem at 1. rewrite Hlen.
    reflexivity.
  - intros m rng1 rng2 cid Hm Hl1 Hl2 Hcid Hlen. unfold _CreditShift_update.
    rewrite Hg. cbn [bind]. rewrite Hgid. cbn [group_id_eqb].
    rewrite Nat.eqb_refl. cbn [assert bind].
    unfold getitem at 1. rewrite Hm. cbn [bind].
    rewrite Hl1. cbn [bind]. rewrite Hl2. cbn [bind].
    rewrite Hcid. cbn [bind].
    apply nth_error_None in Hlen. unfold getitem at 1. rewrite Hlen.
    reflexivity.
Qed.
End CreditShiftChecks.

Lemma CreditShift_index_out_of_range_witness :
  _CreditShift_update (R := CounterRandom QNum) 7%nat third_group_state_Q
    (Some ACCEPT) = Raise IndexError.
Proof.
  apply (proj1 (@CreditShift_index_out_of_range QNum (CounterRandom QNum)
                  7%nat third_group_state_Q 2%nat eq_refl eq_refl)).
  simpl. lia.
Defined.
